(** * BinDiff: propagation of a diff store onto two program graphs

    A shallow embedding of [bindiff/bindiff.py].  The class [BinDiff] reads
    the result of the differ (function, basic-block and instruction match
    rows) and writes [match], [algorithm], [similarity] and [confidence]
    attributes on the objects of two program graphs.

    Object model.  A program is a dictionary address -> function, a function a
    dictionary address -> basic block, a basic block a dictionary
    address -> instruction.  The code never changes these dictionaries, it
    only assigns attributes on the objects they hold.  The two graphs are
    trees owned by two programs, so an object is identified by the program it
    lives in and the keys that lead to it; the attributes live in finite maps
    indexed by these identities (the heap of the embedding), and an attribute
    that was never assigned reads as its class default [None]. *)

From Stdlib Require Import ZArith QArith Qabs Lia.
From stdpp Require Import base option list gmap strings.

Local Open Scope Z_scope.

(** ** Python dictionaries that keep insertion order *)

Module Dict.

Definition t (V : Type) : Type := list (Z * V).

(** [d[k]]: [None] stands for [KeyError]. *)
Fixpoint getitem {V} (d : t V) (k : Z) : option V :=
  match d with
  | [] => None
  | (k', v) :: d' => if bool_decide (k' = k) then Some v else getitem d' k
  end.

(** [k in d] *)
Definition contains {V} (d : t V) (k : Z) : bool :=
  bool_decide (is_Some (getitem d k)).

(** [d.values()] *)
Definition values {V} (d : t V) : list V := map snd d.

(** [d[k] = v]: an existing key keeps its position. *)
Fixpoint setitem {V} (d : t V) (k : Z) (v : V) : t V :=
  match d with
  | [] => [(k, v)]
  | (k', v') :: d' =>
      if bool_decide (k' = k) then (k, v) :: d' else (k', v') :: setitem d' k v
  end.

End Dict.

(** ** The object graph *)

Inductive side := Primary | Secondary.

#[global] Instance side_eq_dec : EqDecision side.
Proof. solve_decision. Defined.

#[global] Instance side_countable : Countable side.
Proof.
  refine (inj_countable' (λ s, match s with Primary => true | Secondary => false end)
                         (λ b : bool, if b then Primary else Secondary) _).
  intros []; reflexivity.
Defined.

(** Identities of the objects: program side, then the keys on the way down. *)
Definition fref : Type := side * Z.
Definition bref : Type := side * Z * Z.
Definition iref : Type := side * Z * Z * Z.

(** A basic block: its [addr] attribute and the keys of its instruction
    dictionary. *)
Record BasicBlockBinDiff := {
  bb_addr : Z;
  bb_insts : list Z
}.

(** [i in bb] *)
Definition bb_contains (bb : BasicBlockBinDiff) (i : Z) : bool :=
  bool_decide (i ∈ bb_insts bb).

(** A function object as the code holds it in [f1] and [f2]: the key under
    which its program stores it and its dictionary of basic blocks. *)
Record FunctionBinDiff := {
  f_key : Z;
  f_blocks : Dict.t BasicBlockBinDiff
}.

Definition ProgramBinDiff : Type := Dict.t (Dict.t BasicBlockBinDiff).

(** [p[addr]] *)
Definition function_at (p : ProgramBinDiff) (addr : Z) : option FunctionBinDiff :=
  blocks ← Dict.getitem p addr; Some {| f_key := addr; f_blocks := blocks |}.

(** Modelled from the spec: the enumerations [FunctionAlgorithm] and
    [BasicBlockAlgorithm] of [bindiff.types] are not part of the sources at
    hand.  The spec only says that the stored integer is decoded into the
    enumeration of its granularity; a member is represented by the integer it
    decodes. *)
Inductive FunctionAlgorithm := FunctionAlgorithm_of (code : Z).
Inductive BasicBlockAlgorithm := BasicBlockAlgorithm_of (code : Z).

(** Modelled from the spec: the classes [ProgramBinDiff], [FunctionBinDiff],
    [BasicBlockBinDiff] and [InstructionBinDiff] of [bindiff.types] are not
    part of the sources at hand.  Following the spec, every annotation is
    optional and unset until propagation assigns it ([match] is a
    cross-reference to an object of the other program, or absent); a set
    [match] is true in a condition and two references are equal when they name
    the same object.  Numbers read from the store are rationals. *)
Record Annotations := {
  p_similarity : gmap side Q;
  p_confidence : gmap side Q;
  fn_similarity : gmap fref Q;
  fn_confidence : gmap fref Q;
  fn_algorithm : gmap fref FunctionAlgorithm;
  fn_match : gmap fref fref;
  bb_match : gmap bref bref;
  bb_algorithm : gmap bref BasicBlockAlgorithm;
  inst_match : gmap iref iref
}.

Definition no_annotations : Annotations :=
  {| p_similarity := ∅; p_confidence := ∅; fn_similarity := ∅; fn_confidence := ∅;
     fn_algorithm := ∅; fn_match := ∅; bb_match := ∅; bb_algorithm := ∅;
     inst_match := ∅ |}.

(** Lines written by [print]. *)
Inductive printed :=
| WillMatchAnother (bb1 bb1_match bb2 bb2_match : bref)
| AlreadyMatched.

(** Timestamps as [datetime] holds them. *)
Record datetime := {
  year : Z; month : Z; day : Z; hour : Z; minute : Z; second : Z
}.

(** The [BinDiff] object together with the attributes of the two graphs it
    mutates and the lines it printed. *)
Record BinDiff := {
  primary : ProgramBinDiff;
  secondary : ProgramBinDiff;
  graph : Annotations;
  similarity : option Q;
  confidence : option Q;
  created : option datetime;
  modified : option datetime;
  single_match : list (Z * Z);
  stdout : list printed
}.

Definition with_graph (g : Annotations) (st : BinDiff) : BinDiff :=
  {| primary := primary st; secondary := secondary st;
     graph := g; similarity := similarity st; confidence := confidence st;
     created := created st; modified := modified st;
     single_match := single_match st; stdout := stdout st |}.

Definition set_p_similarity (v : gmap side Q) (g : Annotations) : Annotations :=
  {| p_similarity := v; p_confidence := p_confidence g;
     fn_similarity := fn_similarity g; fn_confidence := fn_confidence g;
     fn_algorithm := fn_algorithm g; fn_match := fn_match g;
     bb_match := bb_match g; bb_algorithm := bb_algorithm g;
     inst_match := inst_match g |}.

Definition set_p_confidence (v : gmap side Q) (g : Annotations) : Annotations :=
  {| p_similarity := p_similarity g; p_confidence := v;
     fn_similarity := fn_similarity g; fn_confidence := fn_confidence g;
     fn_algorithm := fn_algorithm g; fn_match := fn_match g;
     bb_match := bb_match g; bb_algorithm := bb_algorithm g;
     inst_match := inst_match g |}.

Definition set_fn_similarity (v : gmap fref Q) (g : Annotations) : Annotations :=
  {| p_similarity := p_similarity g; p_confidence := p_confidence g;
     fn_similarity := v; fn_confidence := fn_confidence g;
     fn_algorithm := fn_algorithm g; fn_match := fn_match g;
     bb_match := bb_match g; bb_algorithm := bb_algorithm g;
     inst_match := inst_match g |}.

Definition set_fn_confidence (v : gmap fref Q) (g : Annotations) : Annotations :=
  {| p_similarity := p_similarity g; p_confidence := p_confidence g;
     fn_similarity := fn_similarity g; fn_confidence := v;
     fn_algorithm := fn_algorithm g; fn_match := fn_match g;
     bb_match := bb_match g; bb_algorithm := bb_algorithm g;
     inst_match := inst_match g |}.

Definition set_fn_algorithm (v : gmap fref FunctionAlgorithm) (g : Annotations) : Annotations :=
  {| p_similarity := p_similarity g; p_confidence := p_confidence g;
     fn_similarity := fn_similarity g; fn_confidence := fn_confidence g;
     fn_algorithm := v; fn_match := fn_match g;
     bb_match := bb_match g; bb_algorithm := bb_algorithm g;
     inst_match := inst_match g |}.

Definition set_fn_match (v : gmap fref fref) (g : Annotations) : Annotations :=
  {| p_similarity := p_similarity g; p_confidence := p_confidence g;
     fn_similarity := fn_similarity g; fn_confidence := fn_confidence g;
     fn_algorithm := fn_algorithm g; fn_match := v;
     bb_match := bb_match g; bb_algorithm := bb_algorithm g;
     inst_match := inst_match g |}.

Definition set_bb_match (v : gmap bref bref) (g : Annotations) : Annotations :=
  {| p_similarity := p_similarity g; p_confidence := p_confidence g;
     fn_similarity := fn_similarity g; fn_confidence := fn_confidence g;
     fn_algorithm := fn_algorithm g; fn_match := fn_match g;
     bb_match := v; bb_algorithm := bb_algorithm g;
     inst_match := inst_match g |}.

Definition set_bb_algorithm (v : gmap bref BasicBlockAlgorithm) (g : Annotations) : Annotations :=
  {| p_similarity := p_similarity g; p_confidence := p_confidence g;
     fn_similarity := fn_similarity g; fn_confidence := fn_confidence g;
     fn_algorithm := fn_algorithm g; fn_match := fn_match g;
     bb_match := bb_match g; bb_algorithm := v;
     inst_match := inst_match g |}.

Definition set_inst_match (v : gmap iref iref) (g : Annotations) : Annotations :=
  {| p_similarity := p_similarity g; p_confidence := p_confidence g;
     fn_similarity := fn_similarity g; fn_confidence := fn_confidence g;
     fn_algorithm := fn_algorithm g; fn_match := fn_match g;
     bb_match := bb_match g; bb_algorithm := bb_algorithm g;
     inst_match := v |}.

(** ** Exceptions and the monad of the methods *)

Inductive exn := KeyError | IndexError | AttributeError | TypeError | ValueError.

Inductive outcome (A : Type) :=
| Ret (a : A)
| Raise (e : exn).
Arguments Ret {A} a.
Arguments Raise {A} e.

(** A method runs on the current state and leaves a state behind, also when
    it raises: the attributes assigned before the exception stay assigned. *)
Definition M (A : Type) : Type := BinDiff → outcome A * BinDiff.

Definition ret {A} (a : A) : M A := λ st, (Ret a, st).
Definition raise {A} (e : exn) : M A := λ st, (Raise e, st).
Definition bind {A B} (m : M A) (k : A → M B) : M B :=
  λ st, match m st with
        | (Ret a, st') => k a st'
        | (Raise e, st') => (Raise e, st')
        end.

Notation "'let*' x ':=' m 'in' k" := (bind m (λ x, k))
  (at level 10, x pattern, m at level 100, k at level 200).
Notation "m ';;;' k" := (bind m (λ _, k))
  (at level 100, k at level 200, right associativity).

Definition get : M BinDiff := λ st, (Ret st, st).
Definition modify_graph (f : Annotations → Annotations) : M unit :=
  λ st, (Ret tt, with_graph (f (graph st)) st).

(** [d[k]] where a missing key raises [KeyError]. *)
Definition lookup_or_raise {A} (e : exn) (o : option A) : M A :=
  match o with Some a => ret a | None => raise e end.

(** [print(...)] *)
Definition print (l : printed) : M unit :=
  λ st, (Ret tt,
         {| primary := primary st; secondary := secondary st;
            graph := graph st; similarity := similarity st; confidence := confidence st;
            created := created st; modified := modified st;
            single_match := single_match st; stdout := stdout st ++ [l] |}).

(** [self.single_match.append((i_addr1, i_addr2))] *)
Definition single_match_append (p : Z * Z) : M unit :=
  λ st, (Ret tt,
         {| primary := primary st; secondary := secondary st;
            graph := graph st; similarity := similarity st; confidence := confidence st;
            created := created st; modified := modified st;
            single_match := single_match st ++ [p]; stdout := stdout st |}).

(** ** Basic-block resolution: [BinDiff._load_basic_block_info] *)

Definition primary_block (f1 : FunctionBinDiff) (a : Z) : bref := (Primary, f_key f1, a).
Definition secondary_block (f2 : FunctionBinDiff) (a : Z) : bref := (Secondary, f_key f2, a).

(** [_load_instruction_info]: [inst1.match, inst2.match = inst2, inst1] *)
Definition _load_instruction_info (inst1 inst2 : iref) : M unit :=
  modify_graph (λ g, set_inst_match (<[inst2 := inst1]> (<[inst1 := inst2]> (inst_match g))) g).

(** The head of an iteration of the outer loop: the two blocks are looked up,
    a conflict is printed, and the match and the algorithm are assigned.  The
    conflict line formats [bb1.match.addr] and [bb2.match.addr], so it needs
    both matches to be set. *)
Definition match_blocks (f1 f2 : FunctionBinDiff) (bb_addr1 bb_addr2 algo : Z)
  : M (BasicBlockBinDiff * BasicBlockBinDiff) :=
  let* bb1 := lookup_or_raise KeyError (Dict.getitem (f_blocks f1) bb_addr1) in
  let* bb2 := lookup_or_raise KeyError (Dict.getitem (f_blocks f2) bb_addr2) in
  let r1 := primary_block f1 bb_addr1 in
  let r2 := secondary_block f2 bb_addr2 in
  let* st := get in
  let m1 := bb_match (graph st) !! r1 in
  let m2 := bb_match (graph st) !! r2 in
  (if bool_decide (is_Some m1) || bool_decide (is_Some m2) then
     if bool_decide (m1 ≠ Some r2) || bool_decide (m2 ≠ Some r1) then
       match m1, m2 with
       | Some x1, Some x2 => print (WillMatchAnother r1 x1 r2 x2)
       | _, _ => raise AttributeError
       end
     else ret tt
   else ret tt);;;
  modify_graph (λ g, set_bb_match (<[r2 := r1]> (<[r1 := r2]> (bb_match g))) g);;;
  modify_graph (λ g, set_bb_algorithm
     (<[r2 := BasicBlockAlgorithm_of algo]> (<[r1 := BasicBlockAlgorithm_of algo]> (bb_algorithm g))) g);;;
  ret (bb1, bb2).

(** [i_addr if i_addr in f else [x.addr for x in f.values() if i_addr in x][0]];
    [None] stands for the [IndexError] of [[][0]]. *)
Definition owning_block_addr (f : FunctionBinDiff) (i_addr : Z) : option Z :=
  if Dict.contains (f_blocks f) i_addr then Some i_addr
  else head (map bb_addr (filter (λ x, bb_contains x i_addr = true) (Dict.values (f_blocks f)))).

(** How the inner loop is left: the queue is exhausted, or a [break] hands
    the block addresses and the queue back to the outer loop. *)
Inductive inner_exit :=
| Exhausted
| Break (bb_addr1 bb_addr2 : Z) (inst_data : list (Z * Z)).

(** The body of the [except KeyError] clause, up to the [break]. *)
Definition recover (f1 f2 : FunctionBinDiff) (bb1 bb2 : BasicBlockBinDiff)
    (bb_addr1 bb_addr2 : Z) (i_addr1 i_addr2 : Z) (inst_data : list (Z * Z)) : M inner_exit :=
  if negb (bb_contains bb1 i_addr1) && negb (bb_contains bb2 i_addr2) then
    let* bb_addr1' := lookup_or_raise IndexError (owning_block_addr f1 i_addr1) in
    let* bb_addr2' := lookup_or_raise IndexError (owning_block_addr f2 i_addr2) in
    let* _ := lookup_or_raise KeyError (Dict.getitem (f_blocks f1) bb_addr1') in
    let* st := get in
    let* matched :=
      (if bool_decide (is_Some (bb_match (graph st) !! primary_block f1 bb_addr1')) then ret true
       else
         let* _ := lookup_or_raise KeyError (Dict.getitem (f_blocks f2) bb_addr2') in
         ret (bool_decide (is_Some (bb_match (graph st) !! secondary_block f2 bb_addr2')))) in
    if matched : bool then
      print AlreadyMatched;;;
      single_match_append (i_addr1, i_addr2);;;
      ret (Break bb_addr1' bb_addr2' inst_data)
    else
      ret (Break bb_addr1' bb_addr2' ((i_addr1, i_addr2) :: inst_data))
  else
    single_match_append (i_addr1, i_addr2);;;
    ret (Break bb_addr1 bb_addr2 inst_data).

(** The inner [while inst_data:] loop. *)
Fixpoint drain (f1 f2 : FunctionBinDiff) (bb1 bb2 : BasicBlockBinDiff)
    (bb_addr1 bb_addr2 : Z) (inst_data : list (Z * Z)) : M inner_exit :=
  match inst_data with
  | [] => ret Exhausted
  | (i_addr1, i_addr2) :: inst_data' =>
      if bb_contains bb1 i_addr1 && bb_contains bb2 i_addr2 then
        _load_instruction_info (primary_block f1 bb_addr1, i_addr1)
                               (secondary_block f2 bb_addr2, i_addr2);;;
        drain f1 f2 bb1 bb2 bb_addr1 bb_addr2 inst_data'
      else
        recover f1 f2 bb1 bb2 bb_addr1 bb_addr2 i_addr1 i_addr2 inst_data'
  end.

(** One pass through the body of the outer [while inst_data:] loop. *)
Definition block_pass (f1 f2 : FunctionBinDiff) (algo : Z)
    (bb_addr1 bb_addr2 : Z) (inst_data : list (Z * Z)) : M inner_exit :=
  let* bbs := match_blocks f1 f2 bb_addr1 bb_addr2 algo in
  drain f1 f2 (fst bbs) (snd bbs) bb_addr1 bb_addr2 inst_data.

(** What the outer loop does with the way a pass ended: [loop] is the loop
    itself, entered again after a [break]. *)
Definition after_pass
    (loop : Z → Z → list (Z * Z) → BinDiff → option (outcome unit * BinDiff))
    (r : outcome inner_exit * BinDiff) : option (outcome unit * BinDiff) :=
  match r with
  | (Ret Exhausted, st') => Some (Ret tt, st')
  | (Ret (Break bb_addr1' bb_addr2' inst_data'), st') => loop bb_addr1' bb_addr2' inst_data' st'
  | (Raise e, st') => Some (Raise e, st')
  end.

(** The outer [while inst_data:] loop, with a bound on the number of passes;
    [None] when the bound is reached. *)
Fixpoint block_loop (fuel : nat) (f1 f2 : FunctionBinDiff) (algo : Z)
    (bb_addr1 bb_addr2 : Z) (inst_data : list (Z * Z)) (st : BinDiff)
  : option (outcome unit * BinDiff) :=
  match inst_data with
  | [] => Some (Ret tt, st)
  | _ :: _ =>
      match fuel with
      | O => None
      | S fuel' =>
          after_pass (block_loop fuel' f1 f2 algo)
                     (block_pass f1 f2 algo bb_addr1 bb_addr2 inst_data st)
      end
  end.

(** A number of passes that always suffices (lemma [block_loop_terminates]). *)
Definition block_fuel (f1 : FunctionBinDiff) (inst_data : list (Z * Z)) : nat :=
  (2 * length (f_blocks f1) + length inst_data + 2)%nat.

Definition _load_basic_block_info (f1 f2 : FunctionBinDiff)
    (bb_addr1 bb_addr2 algo : Z) (inst_data : list (Z * Z)) : M unit :=
  λ st, default (Ret tt, st)
          (block_loop (block_fuel f1 inst_data) f1 f2 algo bb_addr1 bb_addr2 inst_data st).

(** ** Rounding to three decimals *)

(** The integer [m] such that ["{0:.3f}".format(x)] prints [m / 1000]:
    the multiple of a thousandth nearest to [x], ties to the even one. *)
Definition round_half_even (x : Q) : Z :=
  let n := Qnum x in
  let d := Z.pos (Qden x) in
  let fl := n / d in
  match 2 * (n mod d) ?= d with
  | Lt => fl
  | Gt => fl + 1
  | Eq => if Z.even fl then fl else fl + 1
  end.

(** [float("{0:.3f}".format(x))] *)
Definition round3 (x : Q) : Q := round_half_even (x * 1000) # 1000.

(** ** Function records: [BinDiff._load_function_info] *)

(** One basic-block group [[bb_addr1, bb_addr2, bb_algo, [(i1, i2), ...]]]. *)
Definition bb_data : Type := Z * Z * Z * list (Z * Z).

(** One function entry [[addr1, addr2, similarity, confidence, algo, {bb_id: bb_data}]]. *)
Record f_data := {
  fd_addr1 : Z;
  fd_addr2 : Z;
  fd_similarity : Q;
  fd_confidence : Q;
  fd_algo : Z;
  fd_bbs : Dict.t bb_data
}.

(** Modelled from the spec: the class [FunctionBinDiff] of [bindiff.types] is
    not part of the sources at hand.  The spec holds the [similarity] and the
    [confidence] of a function rounded to 3 decimals, so assigning one of these
    attributes stores the assigned number rounded to 3 decimals. *)
Definition assign_fn_similarity (r : fref) (v : Q) (g : Annotations) : Annotations :=
  set_fn_similarity (<[r := round3 v]> (fn_similarity g)) g.

Definition assign_fn_confidence (r : fref) (v : Q) (g : Annotations) : Annotations :=
  set_fn_confidence (<[r := round3 v]> (fn_confidence g)) g.

(** The loop over [bbs_data.values()], calling [_load_basic_block_info] on each
    group. *)
Fixpoint load_groups (f1 f2 : FunctionBinDiff) (groups : list bb_data) : M unit :=
  match groups with
  | [] => ret tt
  | (bb_addr1, bb_addr2, algo, inst_data) :: groups' =>
      _load_basic_block_info f1 f2 bb_addr1 bb_addr2 algo inst_data;;;
      load_groups f1 f2 groups'
  end.

Definition _load_function_info (d : f_data) : M unit :=
  let* st := get in
  let* f1 := lookup_or_raise KeyError (function_at (primary st) (fd_addr1 d)) in
  let* f2 := lookup_or_raise KeyError (function_at (secondary st) (fd_addr2 d)) in
  let r1 : fref := (Primary, f_key f1) in
  let r2 : fref := (Secondary, f_key f2) in
  modify_graph (assign_fn_similarity r2 (fd_similarity d) ∘
                assign_fn_similarity r1 (fd_similarity d));;;
  modify_graph (assign_fn_confidence r2 (fd_confidence d) ∘
                assign_fn_confidence r1 (fd_confidence d));;;
  modify_graph (λ g, set_fn_algorithm
     (<[r2 := FunctionAlgorithm_of (fd_algo d)]>
        (<[r1 := FunctionAlgorithm_of (fd_algo d)]> (fn_algorithm g))) g);;;
  modify_graph (λ g, set_fn_match (<[r2 := r1]> (<[r1 := r2]> (fn_match g))) g);;;
  load_groups f1 f2 (Dict.values (fd_bbs d)).

(** The loop of [__init__] over [funs.values()], calling [_load_function_info]
    on each entry. *)
Fixpoint load_functions (funs : list f_data) : M unit :=
  match funs with
  | [] => ret tt
  | d :: funs' => _load_function_info d;;; load_functions funs'
  end.

(** ** The diff store and the record extractor *)

Record metadata_row := {
  md_created : string;
  md_modified : string;
  md_similarity : Q;
  md_confidence : Q
}.

Record function_row := {
  fr_id : Z; fr_address1 : Z; fr_address2 : Z;
  fr_similarity : Q; fr_confidence : Q; fr_algorithm : Z
}.

(** A row of the join of [basicblock] and [instruction]. *)
Record instruction_row := {
  ir_functionid : Z; ir_bb_id : Z; ir_bb_addr1 : Z; ir_bb_addr2 : Z; ir_bb_algo : Z;
  ir_i1 : Z; ir_i2 : Z
}.

(** What the three queries return, rows in the order the cursor yields them. *)
Record Store := {
  metadata : list metadata_row;
  function : list function_row;
  basicblock_instruction : list instruction_row
}.

(** [funs = {x[0]: list(x[1:])+[{}] for x in conn.execute(fun_query)}] *)
Definition initial_funs (rows : list function_row) : Dict.t f_data :=
  foldl (λ funs x, Dict.setitem funs (fr_id x)
           {| fd_addr1 := fr_address1 x; fd_addr2 := fr_address2 x;
              fd_similarity := fr_similarity x; fd_confidence := fr_confidence x;
              fd_algo := fr_algorithm x; fd_bbs := [] |}) [] rows.

Definition with_bbs (d : f_data) (bbs : Dict.t bb_data) : f_data :=
  {| fd_addr1 := fd_addr1 d; fd_addr2 := fd_addr2 d; fd_similarity := fd_similarity d;
     fd_confidence := fd_confidence d; fd_algo := fd_algo d; fd_bbs := bbs |}.

(** The body of the loop over the joined rows; [None] is the [KeyError] of
    [funs[f_id]]. *)
Definition add_instruction_row (funs : Dict.t f_data) (r : instruction_row)
  : option (Dict.t f_data) :=
  d ← Dict.getitem funs (ir_functionid r);
  let bbs :=
    match Dict.getitem (fd_bbs d) (ir_bb_id r) with
    | Some (bb_addr1, bb_addr2, bb_algo, inst_data) =>
        Dict.setitem (fd_bbs d) (ir_bb_id r)
          (bb_addr1, bb_addr2, bb_algo, inst_data ++ [(ir_i1 r, ir_i2 r)])
    | None =>
        Dict.setitem (fd_bbs d) (ir_bb_id r)
          (ir_bb_addr1 r, ir_bb_addr2 r, ir_bb_algo r, [(ir_i1 r, ir_i2 r)])
    end in
  Some (Dict.setitem funs (ir_functionid r) (with_bbs d bbs)).

Fixpoint add_instruction_rows (funs : Dict.t f_data) (rows : list instruction_row)
  : option (Dict.t f_data) :=
  match rows with
  | [] => Some funs
  | r :: rows' => funs' ← add_instruction_row funs r; add_instruction_rows funs' rows'
  end.

Definition extract (db : Store) : option (Dict.t f_data) :=
  add_instruction_rows (initial_funs (function db)) (basicblock_instruction db).

(** ** Metadata and the constructor *)

Section Constructor.

(** [datetime.strptime(s, "%Y-%m-%d %H:%M:%S")]; [None] is its [ValueError]. *)
Variable strptime : string → option datetime.

Definition _load_metadata (db : Store) : M unit :=
  let* row := lookup_or_raise TypeError (head (metadata db)) in
  let* c := lookup_or_raise ValueError (strptime (md_created row)) in
  let* m := lookup_or_raise ValueError (strptime (md_modified row)) in
  λ st, (Ret tt,
         {| primary := primary st; secondary := secondary st; graph := graph st;
            similarity := Some (round3 (md_similarity row));
            confidence := Some (round3 (md_confidence row));
            created := Some c; modified := Some m;
            single_match := single_match st; stdout := stdout st |}).

(** [self.primary.similarity, self.secondary.similarity = self.similarity, self.similarity]
    and the same for the confidence. *)
Definition set_program_defaults : M unit :=
  let* st := get in
  modify_graph (λ g, set_p_similarity
     (partial_alter (λ _, similarity st) Secondary
        (partial_alter (λ _, similarity st) Primary (p_similarity g))) g);;;
  modify_graph (λ g, set_p_confidence
     (partial_alter (λ _, confidence st) Secondary
        (partial_alter (λ _, confidence st) Primary (p_confidence g))) g).

(** The state in which [__init__] starts: the two programs with whatever
    annotations their objects already carry, and the fields it resets. *)
Definition fresh_session (p1 p2 : ProgramBinDiff) (g : Annotations) : BinDiff :=
  {| primary := p1; secondary := p2; graph := g;
     similarity := None; confidence := None; created := None; modified := None;
     single_match := []; stdout := [] |}.

(** [BinDiff.__init__] on two program objects and the content of the diff
    file.  An exception leaves the constructor: no [BinDiff] object exists
    then, but the annotations already written stay on the two programs. *)
Definition __init__ (p1 p2 : ProgramBinDiff) (g : Annotations) (db : Store)
  : outcome unit * BinDiff :=
  (_load_metadata db;;;
   set_program_defaults;;;
   let* funs := lookup_or_raise KeyError (extract db) in
   load_functions (Dict.values funs)) (fresh_session p1 p2 g).

End Constructor.

(** ** The facade: [BinDiff._start_diffing] *)

Module Facade.

(** A file of the output directory, as [pathlib] splits its name. *)
Record Path := { stem : string; suffix : string }.

Definition name (p : Path) : string := stem p ++ suffix p.

Inductive log_record :=
| ErrorDifferTerminated (retcode : Z)
| WarningMultipleFiles
| ErrorDiffFileNotFound.

(** The part of the file system the method touches: the temporary directory
    it creates ([None] when the directory does not exist, else its entries
    in the order [iterdir] yields them), the file found at [out_diff], and the
    records sent to [logging]. *)
Record World := {
  tmp_dir : option (list Path);
  out_diff : option Path;
  logging : list log_record
}.

(** What a run of the differ does: its exit code and the files it leaves in
    the output directory. *)
Record differ_run := { retcode : Z; output : list Path }.

Definition log (r : log_record) (w : World) : World :=
  {| tmp_dir := tmp_dir w; out_diff := out_diff w; logging := logging w ++ [r] |}.

(** [shutil.move(file, out_diff)] *)
Definition move (file : Path) (w : World) : World :=
  {| tmp_dir := filter (λ p, name p ≠ name file) <$> tmp_dir w;
     out_diff := Some file; logging := logging w |}.

(** [shutil.rmtree(tmp_dir, ignore_errors=True)] *)
Definition rmtree (w : World) : World :=
  {| tmp_dir := None; out_diff := out_diff w; logging := logging w |}.

(** ["{}_vs_{}.BinDiff".format(f1.stem, f2.stem)] *)
Definition expected_name (f1 f2 : Path) : string :=
  stem f1 ++ "_vs_" ++ stem f2 ++ ".BinDiff".

Definition _start_diffing (run : differ_run) (f1 f2 : Path) (w : World) : Z * World :=
  (* tmp_dir = Path(tempfile.mkdtemp()); process.wait() *)
  let w := {| tmp_dir := Some (output run); out_diff := out_diff w; logging := logging w |} in
  if bool_decide (retcode run ≠ 0) then
    (retcode run, log (ErrorDifferTerminated (retcode run)) w)
  else
    match find (λ p, bool_decide (name p = expected_name f1 f2)) (output run) with
    | Some out_file => (0, rmtree (move out_file w))
    | None =>
        let candidates := output run in
        let w := if bool_decide (1 < length candidates)%nat
                 then log WarningMultipleFiles w else w in
        match find (λ file, bool_decide (suffix file = ".BinExport")) candidates with
        | Some file => (0, rmtree (move file w))
        | None => (-2, log ErrorDiffFileNotFound w)
        end
    end.

(** [from_binexport_files]: [BinDiff(...) if retcode == 0 else None], for
    any way [construct] of building the session from the world. *)
Definition from_binexport_files {S : Type} (construct : World → S)
    (run : differ_run) (f1 f2 : Path) (w : World) : option S * World :=
  let '(code, w') := _start_diffing run f1 f2 w in
  (if bool_decide (code = 0) then Some (construct w') else None, w').

End Facade.

(** ** Notions used to state the properties *)

(** A relation between the state before and the state after that a method
    maintains whatever its outcome. *)
Definition maintains {A} (R : relation BinDiff) (m : M A) : Prop :=
  ∀ st, R st (snd (m st)).

(** Everything the block-level methods leave alone: the two programs, the
    fields of the session read from the metadata, and the annotations of
    programs and functions. *)
Record block_frame (st st' : BinDiff) : Prop := {
  bf_primary : primary st' = primary st;
  bf_secondary : secondary st' = secondary st;
  bf_similarity : similarity st' = similarity st;
  bf_confidence : confidence st' = confidence st;
  bf_created : created st' = created st;
  bf_modified : modified st' = modified st;
  bf_p_similarity : p_similarity (graph st') = p_similarity (graph st);
  bf_p_confidence : p_confidence (graph st') = p_confidence (graph st);
  bf_fn_similarity : fn_similarity (graph st') = fn_similarity (graph st);
  bf_fn_confidence : fn_confidence (graph st') = fn_confidence (graph st);
  bf_fn_algorithm : fn_algorithm (graph st') = fn_algorithm (graph st);
  bf_fn_match : fn_match (graph st') = fn_match (graph st)
}.

(** What the function-level methods leave alone. *)
Record session_frame (st st' : BinDiff) : Prop := {
  sf_primary : primary st' = primary st;
  sf_secondary : secondary st' = secondary st;
  sf_similarity : similarity st' = similarity st;
  sf_confidence : confidence st' = confidence st;
  sf_p_similarity : p_similarity (graph st') = p_similarity (graph st);
  sf_p_confidence : p_confidence (graph st') = p_confidence (graph st)
}.

(** The function annotations of the object [r] are the same in both states. *)
Record fn_same_at (r : fref) (st st' : BinDiff) : Prop := {
  fs_similarity : fn_similarity (graph st') !! r = fn_similarity (graph st) !! r;
  fs_confidence : fn_confidence (graph st') !! r = fn_confidence (graph st) !! r;
  fs_algorithm : fn_algorithm (graph st') !! r = fn_algorithm (graph st) !! r;
  fs_match : fn_match (graph st') !! r = fn_match (graph st) !! r
}.

(** No basic block loses its match: a [match] that is set stays set. *)
Definition matches_kept (st st' : BinDiff) : Prop :=
  ∀ r, is_Some (bb_match (graph st) !! r) → is_Some (bb_match (graph st') !! r).

(** The drain of a queue against a fixed pair of blocks, when every pair is
    found: one [_load_instruction_info] per pair, in order. *)
Definition match_pairs (r1 r2 : bref) (inst_data : list (Z * Z))
    (m : gmap iref iref) : gmap iref iref :=
  foldl (λ m p, <[(r2, p.2) := (r1, p.1)]> (<[(r1, p.1) := (r2, p.2)]> m)) m inst_data.

(** The blocks of [f1] that have no match yet. *)
Definition unmatched (f1 : FunctionBinDiff) (st : BinDiff) : nat :=
  length (filter (λ kb, bb_match (graph st) !! primary_block f1 kb.1 = None) (f_blocks f1)).

(** [bb_addr1] names a block of [f1] that has no match yet. *)
Definition fresh_block (f1 : FunctionBinDiff) (st : BinDiff) (bb_addr1 : Z) : Prop :=
  is_Some (Dict.getitem (f_blocks f1) bb_addr1) ∧
  bb_match (graph st) !! primary_block f1 bb_addr1 = None.

(** The quantity that every pass of the outer loop decreases. *)
Definition potential (f1 : FunctionBinDiff) (st : BinDiff) (bb_addr1 : Z)
    (inst_data : list (Z * Z)) : nat :=
  (2 * unmatched f1 st + length inst_data
   + (if bool_decide (fresh_block f1 st bb_addr1) then 0 else 1))%nat.

(** The matches of the basic blocks are the same in both states. *)
Definition same_block_matches (st st' : BinDiff) : Prop :=
  bb_match (graph st') = bb_match (graph st).

(** The state that [match_blocks] leaves when it does not raise: [out] is
    what it printed. *)
Definition blocks_matched (r1 r2 : bref) (algo : Z) (out : list printed)
    (st : BinDiff) : BinDiff :=
  {| primary := primary st; secondary := secondary st;
     graph := set_bb_algorithm
       (<[r2 := BasicBlockAlgorithm_of algo]>
          (<[r1 := BasicBlockAlgorithm_of algo]> (bb_algorithm (graph st))))
       (set_bb_match (<[r2 := r1]> (<[r1 := r2]> (bb_match (graph st)))) (graph st));
     similarity := similarity st; confidence := confidence st;
     created := created st; modified := modified st;
     single_match := single_match st; stdout := stdout st ++ out |}.

(** The state after the instruction pairs of [inst_data] were matched. *)
Definition pairs_matched (r1 r2 : bref) (inst_data : list (Z * Z)) (st : BinDiff) : BinDiff :=
  with_graph (set_inst_match (match_pairs r1 r2 inst_data (inst_match (graph st))) (graph st)) st.

(** Every pair of the group lies in the two blocks. *)
Definition pairs_in_blocks (bb1 bb2 : BasicBlockBinDiff) (inst_data : list (Z * Z)) : Prop :=
  Forall (λ p, p.1 ∈ bb_insts bb1 ∧ p.2 ∈ bb_insts bb2) inst_data.

(** The methods that write on the session and on the two graphs. *)
Inductive operation :=
| LoadMetadata (strptime : string → option datetime) (db : Store)
| SetProgramDefaults
| LoadFunctionInfo (d : f_data)
| LoadBasicBlockInfo (f1 f2 : FunctionBinDiff) (bb_addr1 bb_addr2 algo : Z)
                     (inst_data : list (Z * Z))
| LoadInstructionInfo (inst1 inst2 : iref).

Definition perform (op : operation) : M unit :=
  match op with
  | LoadMetadata strptime db => _load_metadata strptime db
  | SetProgramDefaults => set_program_defaults
  | LoadFunctionInfo d => _load_function_info d
  | LoadBasicBlockInfo f1 f2 bb_addr1 bb_addr2 algo inst_data =>
      _load_basic_block_info f1 f2 bb_addr1 bb_addr2 algo inst_data
  | LoadInstructionInfo inst1 inst2 => _load_instruction_info inst1 inst2
  end.

(** The state after a sequence of calls, whatever their outcomes. *)
Definition perform_all (ops : list operation) (st : BinDiff) : BinDiff :=
  foldl (λ st op, snd (perform op st)) st ops.

(** ** Two small programs used as concrete inputs *)

Module Sample.

Definition p1_entry := {| bb_addr := 0x1000; bb_insts := [0x1000; 0x1004] |}.
Definition p1_next := {| bb_addr := 0x1008; bb_insts := [0x1008; 0x100c] |}.
Definition p2_entry := {| bb_addr := 0x2000; bb_insts := [0x2000; 0x2004] |}.
Definition p2_next := {| bb_addr := 0x2008; bb_insts := [0x2008; 0x200c] |}.

Definition f1 : FunctionBinDiff :=
  {| f_key := 0x1000; f_blocks := [(0x1000, p1_entry); (0x1008, p1_next)] |}.
Definition f2 : FunctionBinDiff :=
  {| f_key := 0x2000; f_blocks := [(0x2000, p2_entry); (0x2008, p2_next)] |}.

Definition p1 : ProgramBinDiff := [(0x1000, f_blocks f1)].
Definition p2 : ProgramBinDiff := [(0x2000, f_blocks f2)].

(** Two fresh graphs. *)
Definition fresh : BinDiff := fresh_session p1 p2 no_annotations.

(** The entry blocks are matched with each other. *)
Definition entry_matched : BinDiff :=
  snd (_load_basic_block_info f1 f2 0x1000 0x2000 2
         [(0x1000, 0x2000); (0x1004, 0x2004)] fresh).

(** Both block pairs are matched. *)
Definition all_matched : BinDiff :=
  snd (_load_basic_block_info f1 f2 0x1008 0x2008 2
         [(0x1008, 0x2008); (0x100c, 0x200c)] entry_matched).

End Sample.

(** The two programs are the same in both states. *)
Definition same_programs (st st' : BinDiff) : Prop :=
  primary st' = primary st ∧ secondary st' = secondary st.

(** The lines 47-50 of the constructor: the metadata is loaded and applied
    to the two programs. *)
Definition load_and_apply_metadata (strptime : string → option datetime) (db : Store) : M unit :=
  _load_metadata strptime db;;; set_program_defaults.

(** A function entry names a function that one of the programs does not have. *)
Definition function_missing (p1 p2 : ProgramBinDiff) (d : f_data) : Prop :=
  function_at p1 (fd_addr1 d) = None ∨ function_at p2 (fd_addr2 d) = None.

(** What a function entry leaves on its two functions. *)
Definition function_pair_annotated (d : f_data) (st : BinDiff) : Prop :=
  fn_match (graph st) !! (Primary, fd_addr1 d) = Some (Secondary, fd_addr2 d) ∧
  fn_match (graph st) !! (Secondary, fd_addr2 d) = Some (Primary, fd_addr1 d) ∧
  fn_similarity (graph st) !! (Primary, fd_addr1 d) = Some (round3 (fd_similarity d)) ∧
  fn_similarity (graph st) !! (Secondary, fd_addr2 d) = Some (round3 (fd_similarity d)) ∧
  fn_confidence (graph st) !! (Primary, fd_addr1 d) = Some (round3 (fd_confidence d)) ∧
  fn_confidence (graph st) !! (Secondary, fd_addr2 d) = Some (round3 (fd_confidence d)) ∧
  fn_algorithm (graph st) !! (Primary, fd_addr1 d) = Some (FunctionAlgorithm_of (fd_algo d)) ∧
  fn_algorithm (graph st) !! (Secondary, fd_addr2 d) = Some (FunctionAlgorithm_of (fd_algo d)).

Module SampleStore.

(** A parser that accepts every string; the properties below do not depend
    on the timestamps. *)
Definition strptime (s : string) : option datetime :=
  Some {| year := 2020; month := 1; day := 1; hour := 0; minute := 0; second := 0 |}.

Definition md (s c : Q) : metadata_row :=
  {| md_created := "2020-01-01 00:00:00"; md_modified := "2020-01-01 00:00:00";
     md_similarity := s; md_confidence := c |}.

(** The store of the example of the spec: one function pair, one group of
    two instruction pairs. *)
Definition db : Store :=
  {| metadata := [md (19 # 20) (9 # 10)];
     function := [{| fr_id := 1; fr_address1 := 0x1000; fr_address2 := 0x2000;
                     fr_similarity := 19 # 20; fr_confidence := 9 # 10;
                     fr_algorithm := 1 |}];
     basicblock_instruction :=
       [{| ir_functionid := 1; ir_bb_id := 1; ir_bb_addr1 := 0x1000; ir_bb_addr2 := 0x2000;
           ir_bb_algo := 2; ir_i1 := 0x1000; ir_i2 := 0x2000 |};
        {| ir_functionid := 1; ir_bb_id := 1; ir_bb_addr1 := 0x1000; ir_bb_addr2 := 0x2000;
           ir_bb_algo := 2; ir_i1 := 0x1004; ir_i2 := 0x2004 |}] |}.

(** A store whose first function record names a function that the primary
    program does not have, and whose second record is the one above. *)
Definition db_missing : Store :=
  {| metadata := [md (19 # 20) (9 # 10)];
     function := [{| fr_id := 1; fr_address1 := 0x9000; fr_address2 := 0x2000;
                     fr_similarity := 1 # 2; fr_confidence := 1 # 2;
                     fr_algorithm := 1 |};
                  {| fr_id := 2; fr_address1 := 0x1000; fr_address2 := 0x2000;
                     fr_similarity := 19 # 20; fr_confidence := 9 # 10;
                     fr_algorithm := 1 |}];
     basicblock_instruction := [] |}.

(** A store whose metadata holds a similarity above one. *)
Definition db_out_of_range : Store :=
  {| metadata := [md (3 # 2) (9 # 10)]; function := []; basicblock_instruction := [] |}.

(** Runs of the differ and the files they leave. *)
Definition primary_file : Facade.Path := {| Facade.stem := "a"; Facade.suffix := ".BinExport" |}.
Definition secondary_file : Facade.Path := {| Facade.stem := "b"; Facade.suffix := ".BinExport" |}.
Definition world : Facade.World :=
  {| Facade.tmp_dir := None; Facade.out_diff := None; Facade.logging := [] |}.

Definition run_failed : Facade.differ_run := {| Facade.retcode := 1; Facade.output := [] |}.
Definition run_other_log : Facade.differ_run :=
  {| Facade.retcode := 0;
     Facade.output := [{| Facade.stem := "differ"; Facade.suffix := ".log" |}] |}.
Definition run_other_name : Facade.differ_run :=
  {| Facade.retcode := 0;
     Facade.output := [{| Facade.stem := "result"; Facade.suffix := ".BinDiff" |}] |}.
Definition run_binexport : Facade.differ_run :=
  {| Facade.retcode := 0;
     Facade.output := [{| Facade.stem := "a"; Facade.suffix := ".BinExport" |}] |}.
Definition run_expected : Facade.differ_run :=
  {| Facade.retcode := 0;
     Facade.output := [{| Facade.stem := "a_vs_b"; Facade.suffix := ".BinDiff" |}] |}.

End SampleStore.

(** Every basic-block group of every function entry holds at least one
    instruction pair. *)
Definition groups_nonempty (funs : Dict.t f_data) : Prop :=
  Forall (λ kd : Z * f_data, Forall (λ bg : Z * bb_data, bg.2.2 ≠ []) (fd_bbs kd.2)) funs.

(** ** Notions used by the further properties *)

(** [single_match] was only appended to, and with pairs taken from [pairs]. *)
Definition single_match_grows_by (pairs : list (Z * Z)) (st st' : BinDiff) : Prop :=
  ∃ added, single_match st' = single_match st ++ added ∧ added ⊆ pairs.

(** The pair was not dropped: it is in [single_match], or both of its
    instructions carry a match inside some block of their function. *)
Definition accounted_for (f1 f2 : FunctionBinDiff) (st : BinDiff) (p : Z * Z) : Prop :=
  p ∈ single_match st ∨
  ((∃ a1, is_Some (inst_match (graph st) !! (primary_block f1 a1, p.1))) ∧
   (∃ a2, is_Some (inst_match (graph st) !! (secondary_block f2 a2, p.2)))).

(** What is accounted for stays accounted for. *)
Definition accounts_kept (st st' : BinDiff) : Prop :=
  (∀ p, p ∈ single_match st → p ∈ single_match st') ∧
  (∀ r, is_Some (inst_match (graph st) !! r) → is_Some (inst_match (graph st') !! r)).

(** The blocks of the function are stored under their own address. *)
Definition keyed_by_addr (f : FunctionBinDiff) : Prop :=
  Forall (λ kb : Z * BasicBlockBinDiff, kb.1 = bb_addr kb.2) (f_blocks f).

(** The joined rows of one basic-block group, in the order of the cursor. *)
Definition rows_of (fid bid : Z) (rows : list instruction_row) : list instruction_row :=
  filter (λ r, ir_functionid r = fid ∧ ir_bb_id r = bid) rows.

(** What a row contributes to its group. *)
Definition row_pair (r : instruction_row) : Z * Z := (ir_i1 r, ir_i2 r).

(** The groups of [funs] hold the rows of [rows]: a group has the pairs of its
    rows in order and the block addresses and algorithm of its first row, and
    a group that is absent has no row. *)
Definition grouped (rows : list instruction_row) (funs : Dict.t f_data) : Prop :=
  ∀ fid d bid, Dict.getitem funs fid = Some d →
    match Dict.getitem (fd_bbs d) bid with
    | Some (bb_addr1, bb_addr2, bb_algo, inst_data) =>
        inst_data = row_pair <$> rows_of fid bid rows ∧
        ∃ r0, head (rows_of fid bid rows) = Some r0 ∧
              bb_addr1 = ir_bb_addr1 r0 ∧ bb_addr2 = ir_bb_addr2 r0 ∧
              bb_algo = ir_bb_algo r0
    | None => rows_of fid bid rows = []
    end.

(** The metadata cannot be read: the table is empty or a timestamp does not
    parse. *)
Definition metadata_unreadable (strptime : string → option datetime) (db : Store) : Prop :=
  match head (metadata db) with
  | None => True
  | Some row => strptime (md_created row) = None ∨ strptime (md_modified row) = None
  end.

(** The annotations of the blocks and instructions of every function other
    than the primary function [k1] and the secondary function [k2] are the
    same in both states. *)
Definition other_functions_same (k1 k2 : Z) (st st' : BinDiff) : Prop :=
  ∀ r : bref, r.1 ≠ (Primary, k1) → r.1 ≠ (Secondary, k2) →
    bb_match (graph st') !! r = bb_match (graph st) !! r ∧
    bb_algorithm (graph st') !! r = bb_algorithm (graph st) !! r ∧
    ∀ i, inst_match (graph st') !! (r, i) = inst_match (graph st) !! (r, i).

(** * Properties *)

(** ** The monad *)

Ltac unfold_monad :=
  unfold lookup_or_raise in *;
  unfold bind, ret, raise, get, modify_graph, print, single_match_append in *.

Section Maintains.

Context (R : relation BinDiff) `{!PreOrder R}.

Lemma maintains_ret {A} (a : A) : maintains R (ret a).
Proof. intros st. reflexivity. Qed.

Lemma maintains_raise {A} (e : exn) : maintains R (raise (A:=A) e).
Proof. intros st. reflexivity. Qed.

Lemma maintains_get : maintains R get.
Proof. intros st. reflexivity. Qed.

Lemma maintains_lookup_or_raise {A} e (o : option A) :
  maintains R (lookup_or_raise e o).
Proof. destruct o; [apply maintains_ret | apply maintains_raise]. Qed.

Lemma maintains_bind {A B} (m : M A) (k : A → M B) :
  maintains R m → (∀ a, maintains R (k a)) → maintains R (bind m k).
Proof.
  intros Hm Hk st. unfold bind. specialize (Hm st).
  destruct (m st) as [[a|e] st1]; simpl in *; [|exact Hm].
  etransitivity; [exact Hm | apply Hk].
Qed.

Lemma maintains_if {A} (b : bool) (m1 m2 : M A) :
  maintains R m1 → maintains R m2 → maintains R (if b then m1 else m2).
Proof. by destruct b. Qed.

End Maintains.

Create HintDb maintains discriminated.

(** Walks through the binds and branches of a method; the elementary steps
    are closed with the lemmas of the [maintains] database. *)
Ltac solve_maintains :=
  repeat first
    [ solve [auto with maintains]
    | apply maintains_if
    | apply maintains_bind; [apply _| |intros ?]
    | apply maintains_lookup_or_raise; apply _
    | apply maintains_get; apply _
    | apply maintains_ret; apply _
    | apply maintains_raise; apply _ ].

#[global] Instance block_frame_preorder : PreOrder block_frame.
Proof.
  split.
  - intros st. by split.
  - intros st1 st2 st3 [] []. split; congruence.
Qed.

#[global] Instance session_frame_preorder : PreOrder session_frame.
Proof.
  split.
  - intros st. by split.
  - intros st1 st2 st3 [] []. split; congruence.
Qed.

#[global] Instance fn_same_at_preorder r : PreOrder (fn_same_at r).
Proof.
  split.
  - intros st. by split.
  - intros st1 st2 st3 [] []. split; congruence.
Qed.

#[global] Instance matches_kept_preorder : PreOrder matches_kept.
Proof.
  split.
  - by intros st r.
  - intros st1 st2 st3 H12 H23 r Hr. by apply H23, H12.
Qed.

Lemma block_frame_session_frame st st' : block_frame st st' → session_frame st st'.
Proof. intros []. by split. Qed.

Lemma block_frame_fn_same_at r st st' : block_frame st st' → fn_same_at r st st'.
Proof. intros []. split; congruence. Qed.

(** ** Dictionaries *)

Lemma getitem_Some_elem_of {V} (d : Dict.t V) k v :
  Dict.getitem d k = Some v → (k, v) ∈ d.
Proof.
  induction d as [|[k' v'] d IH]; simpl; [done|].
  case_bool_decide as Hk.
  - intros [= ->]. subst. left.
  - intros H. right. by apply IH.
Qed.

Lemma contains_true {V} (d : Dict.t V) k :
  Dict.contains d k = true ↔ is_Some (Dict.getitem d k).
Proof. unfold Dict.contains. by rewrite bool_decide_eq_true. Qed.

(** ** Effects of the elementary steps *)

Lemma print_block_frame l : maintains block_frame (print l).
Proof. intros st. by split. Qed.

Lemma append_block_frame p : maintains block_frame (single_match_append p).
Proof. intros st. by split. Qed.

Lemma print_matches_kept l : maintains matches_kept (print l).
Proof. by intros st r. Qed.

Lemma append_matches_kept p : maintains matches_kept (single_match_append p).
Proof. by intros st r. Qed.

Lemma load_instruction_block_frame i1 i2 :
  maintains block_frame (_load_instruction_info i1 i2).
Proof. intros st. by split. Qed.

Lemma load_instruction_matches_kept i1 i2 :
  maintains matches_kept (_load_instruction_info i1 i2).
Proof. by intros st r. Qed.

#[global] Hint Resolve print_block_frame append_block_frame print_matches_kept
  append_matches_kept load_instruction_block_frame load_instruction_matches_kept
  : maintains.

(** [match_blocks] either raises and leaves the state as it was, or prints
    at most one line and assigns the two matches and the two algorithms. *)
Lemma match_blocks_inv f1 f2 a1 a2 algo st o st' :
  match_blocks f1 f2 a1 a2 algo st = (o, st') →
  let r1 := primary_block f1 a1 in
  let r2 := secondary_block f2 a2 in
  (∃ e, o = Raise e ∧ st' = st) ∨
  (∃ bb1 bb2 out,
      o = Ret (bb1, bb2) ∧
      Dict.getitem (f_blocks f1) a1 = Some bb1 ∧
      Dict.getitem (f_blocks f2) a2 = Some bb2 ∧
      st' = {| primary := primary st; secondary := secondary st;
               graph := set_bb_algorithm
                 (<[r2 := BasicBlockAlgorithm_of algo]>
                    (<[r1 := BasicBlockAlgorithm_of algo]> (bb_algorithm (graph st))))
                 (set_bb_match (<[r2 := r1]> (<[r1 := r2]> (bb_match (graph st)))) (graph st));
               similarity := similarity st; confidence := confidence st;
               created := created st; modified := modified st;
               single_match := single_match st; stdout := stdout st ++ out |}).
Proof.
  intros H r1 r2. subst r1 r2. unfold match_blocks in H. unfold_monad.
  cbv beta iota zeta in H.
  destruct (Dict.getitem (f_blocks f1) a1) as [bb1|]; [|left; naive_solver].
  destruct (Dict.getitem (f_blocks f2) a2) as [bb2|]; [|left; naive_solver].
  revert H.
  destruct (bb_match (graph st) !! primary_block f1 a1) as [x1|] eqn:E1;
    destruct (bb_match (graph st) !! secondary_block f2 a2) as [x2|] eqn:E2;
    intros H; simpl in H;
    repeat (case_bool_decide; simpl in H); simplify_eq;
    first [ left; by eexists
          | right; eexists _, _, []; repeat (split; [done|]);
            rewrite app_nil_r; by destruct st
          | right; eexists _, _, [_]; repeat (split; [done|]); done ].
Qed.
#[global] Instance same_block_matches_preorder : PreOrder same_block_matches.
Proof.
  split.
  - by intros st.
  - intros st1 st2 st3 H12 H23. unfold same_block_matches in *. congruence.
Qed.

Lemma match_blocks_block_frame f1 f2 a1 a2 algo :
  maintains block_frame (match_blocks f1 f2 a1 a2 algo).
Proof.
  intros st. destruct (match_blocks f1 f2 a1 a2 algo st) as [o st'] eqn:E.
  apply match_blocks_inv in E as [(e & -> & ->)|(bb1 & bb2 & out & -> & _ & _ & ->)];
    simpl; by split.
Qed.

Lemma match_blocks_matches_kept f1 f2 a1 a2 algo :
  maintains matches_kept (match_blocks f1 f2 a1 a2 algo).
Proof.
  intros st. destruct (match_blocks f1 f2 a1 a2 algo st) as [o st'] eqn:E.
  apply match_blocks_inv in E as [(e & -> & ->)|(bb1 & bb2 & out & -> & _ & _ & ->)];
    simpl; [done|].
  intros r Hr. simpl. rewrite !lookup_insert. by repeat case_decide.
Qed.

(** ** The recovery and the inner loop *)

Lemma recover_inv f1 f2 bb1 bb2 a1 a2 i1 i2 q st o st' :
  recover f1 f2 bb1 bb2 a1 a2 i1 i2 q st = (o, st') →
  graph st' = graph st ∧
  ((∃ e, o = Raise e) ∨
   (∃ a1' a2', o = Ret (Break a1' a2' q)) ∨
   (∃ a1' a2', o = Ret (Break a1' a2' ((i1, i2) :: q)) ∧ fresh_block f1 st a1')).
Proof.
  unfold recover. intros H.
  destruct (negb (bb_contains bb1 i1) && negb (bb_contains bb2 i2)); unfold_monad.
  - destruct (owning_block_addr f1 i1) as [a1'|]; [|simplify_eq; naive_solver].
    destruct (owning_block_addr f2 i2) as [a2'|]; [|simplify_eq; naive_solver].
    cbv beta iota zeta in H.
    destruct (Dict.getitem (f_blocks f1) a1') as [b1'|] eqn:E1; [|simplify_eq; naive_solver].
    cbv beta iota zeta in H.
    case_bool_decide as Hm1; cbv beta iota zeta in H.
    { simplify_eq. simpl. split; [done|]. right; left. by eexists _, _. }
    destruct (Dict.getitem (f_blocks f2) a2') as [b2'|]; [|simplify_eq; naive_solver].
    cbv beta iota zeta in H.
    case_bool_decide as Hm2; cbv beta iota zeta in H; simplify_eq; simpl.
    + split; [done|]. right; left. by eexists _, _.
    + split; [done|]. right; right. eexists _, _. split; [done|].
      split; [by rewrite E1|]. by apply eq_None_not_Some.
  - simplify_eq. simpl. split; [done|]. right; left. by eexists _, _.
Qed.

Lemma recover_block_frame f1 f2 bb1 bb2 a1 a2 i1 i2 q :
  maintains block_frame (recover f1 f2 bb1 bb2 a1 a2 i1 i2 q).
Proof.
  unfold recover. solve_maintains.
Qed.

Lemma recover_same_graph f1 f2 bb1 bb2 a1 a2 i1 i2 q st :
  graph (snd (recover f1 f2 bb1 bb2 a1 a2 i1 i2 q st)) = graph st.
Proof.
  destruct (recover f1 f2 bb1 bb2 a1 a2 i1 i2 q st) as [o st'] eqn:E.
  by apply recover_inv in E as [? _].
Qed.

Lemma drain_block_frame f1 f2 bb1 bb2 a1 a2 q :
  maintains block_frame (drain f1 f2 bb1 bb2 a1 a2 q).
Proof.
  induction q as [|[i1 i2] q IH]; simpl.
  - solve_maintains.
  - pose proof recover_block_frame. solve_maintains.
Qed.

Lemma drain_same_block_matches f1 f2 bb1 bb2 a1 a2 q :
  maintains same_block_matches (drain f1 f2 bb1 bb2 a1 a2 q).
Proof.
  induction q as [|[i1 i2] q IH]; simpl.
  - solve_maintains.
  - apply maintains_if.
    + apply maintains_bind; [apply _|by intros st|done].
    + intros st. red. by rewrite recover_same_graph.
Qed.

Lemma drain_matches_kept f1 f2 bb1 bb2 a1 a2 q :
  maintains matches_kept (drain f1 f2 bb1 bb2 a1 a2 q).
Proof.
  intros st r. by rewrite (drain_same_block_matches f1 f2 bb1 bb2 a1 a2 q st).
Qed.

(** A [break] hands back a queue that is shorter, or one that is not longer
    together with a block of [f1] that has no match yet. *)
Lemma drain_break f1 f2 bb1 bb2 a1 a2 q st a1' a2' q' st' :
  drain f1 f2 bb1 bb2 a1 a2 q st = (Ret (Break a1' a2' q'), st') →
  (length q' < length q)%nat ∨
  ((length q' ≤ length q)%nat ∧ fresh_block f1 st' a1').
Proof.
  revert st. induction q as [|[i1 i2] q IH]; intros st; simpl.
  - unfold ret. intros [=].
  - destruct (bb_contains bb1 i1 && bb_contains bb2 i2).
    + unfold bind, _load_instruction_info, modify_graph. intros H.
      apply IH in H as [?|[? ?]]; [left; lia | right; split; [lia|done]].
    + intros H. pose proof H as H'. apply recover_inv in H' as [Hg Ho].
      destruct Ho as [[e ?]|[(? & ? & ?)|(? & ? & ? & Hf)]]; simplify_eq.
      * left; lia.
      * right. split; [done|]. unfold fresh_block in *. by rewrite Hg.
Qed.

Lemma block_pass_block_frame f1 f2 algo a1 a2 q :
  maintains block_frame (block_pass f1 f2 algo a1 a2 q).
Proof.
  pose proof match_blocks_block_frame. pose proof drain_block_frame.
  unfold block_pass. solve_maintains.
Qed.

Lemma block_pass_matches_kept f1 f2 algo a1 a2 q :
  maintains matches_kept (block_pass f1 f2 algo a1 a2 q).
Proof.
  pose proof match_blocks_matches_kept. pose proof drain_matches_kept.
  unfold block_pass. solve_maintains.
Qed.

(** ** The outer loop ends *)

Lemma filter_length_le {A} (P Q : A → Prop)
    `{!∀ x, Decision (P x)} `{!∀ x, Decision (Q x)} (l : list A) :
  (∀ x, x ∈ l → P x → Q x) →
  (length (filter P l) ≤ length (filter Q l))%nat.
Proof.
  induction l as [|x l IH]; intros HPQ; [done|].
  rewrite !filter_cons.
  assert (length (filter P l) ≤ length (filter Q l))%nat as Hl.
  { apply IH. intros y Hy. apply HPQ. by right. }
  destruct (decide (P x)) as [HP|HP].
  - rewrite decide_True by (apply HPQ; [left|done]). simpl. lia.
  - destruct (decide (Q x)); simpl; lia.
Qed.

Lemma filter_length_lt {A} (P Q : A → Prop)
    `{!∀ x, Decision (P x)} `{!∀ x, Decision (Q x)} (l : list A) (x : A) :
  (∀ y, y ∈ l → P y → Q y) → x ∈ l → Q x → ¬ P x →
  (length (filter P l) < length (filter Q l))%nat.
Proof.
  induction l as [|y l IH]; intros HPQ Hx HQ HP; [by apply elem_of_nil in Hx|].
  rewrite !filter_cons.
  assert (∀ z, z ∈ l → P z → Q z) as HPQ' by (intros z Hz; apply HPQ; by right).
  apply elem_of_cons in Hx as [<-|Hx].
  - rewrite decide_False, decide_True by done. simpl.
    pose proof (filter_length_le P Q l HPQ'). lia.
  - specialize (IH HPQ' Hx HQ HP).
    destruct (decide (P y)) as [HPy|HPy].
    + rewrite decide_True by (apply HPQ; [left|done]). simpl. lia.
    + destruct (decide (Q y)); simpl; lia.
Qed.

Lemma unmatched_le_blocks f1 st : (unmatched f1 st ≤ length (f_blocks f1))%nat.
Proof. apply length_filter. Qed.

Lemma unmatched_same f1 st st' :
  same_block_matches st st' → unmatched f1 st' = unmatched f1 st.
Proof. unfold unmatched, same_block_matches. by intros ->. Qed.

(** Matching two blocks never adds an unmatched block, and removes one when
    the primary block had no match. *)
Lemma unmatched_match_blocks f1 f2 a1 a2 algo st bbs st' :
  match_blocks f1 f2 a1 a2 algo st = (Ret bbs, st') →
  (unmatched f1 st' ≤ unmatched f1 st)%nat ∧
  (fresh_block f1 st a1 → (unmatched f1 st' < unmatched f1 st)%nat).
Proof.
  intros E.
  apply match_blocks_inv in E as [(e & ? & _)|(bb1 & bb2 & out & _ & Hbb1 & _ & ->)];
    [done|].
  unfold unmatched. simpl.
  assert (∀ kb : Z * BasicBlockBinDiff,
    <[secondary_block f2 a2 := primary_block f1 a1]>
      (<[primary_block f1 a1 := secondary_block f2 a2]> (bb_match (graph st)))
      !! primary_block f1 kb.1 = None →
    bb_match (graph st) !! primary_block f1 kb.1 = None) as Hmono.
  { intros kb. rewrite !lookup_insert. by repeat case_decide. }
  split.
  - apply filter_length_le. intros kb _. apply Hmono.
  - intros [_ Hnone].
    apply (filter_length_lt _ _ _ (a1, bb1)).
    + intros kb _. apply Hmono.
    + by apply getitem_Some_elem_of.
    + done.
    + simpl. rewrite lookup_insert_ne by done. by rewrite lookup_insert_eq.
Qed.

(** Every pass that ends with a [break] decreases the potential. *)
Lemma block_pass_potential f1 f2 algo a1 a2 q st a1' a2' q' st' :
  block_pass f1 f2 algo a1 a2 q st = (Ret (Break a1' a2' q'), st') →
  (potential f1 st' a1' q' < potential f1 st a1 q)%nat.
Proof.
  unfold block_pass, bind.
  destruct (match_blocks f1 f2 a1 a2 algo st) as [[[bb1 bb2]|e] st1] eqn:E; [|done].
  simpl. intros Hd.
  apply unmatched_match_blocks in E as [Hle Hlt].
  pose proof (drain_same_block_matches f1 f2 bb1 bb2 a1 a2 q st1) as Hsame.
  rewrite Hd in Hsame. simpl in Hsame. apply (unmatched_same f1) in Hsame.
  apply drain_break in Hd.
  unfold potential. rewrite Hsame.
  assert (length q' + (if bool_decide (fresh_block f1 st' a1') then 0 else 1)
          ≤ length q)%nat as Hq.
  { destruct Hd as [?|[? Hf]].
    - case_bool_decide; lia.
    - rewrite bool_decide_eq_true_2 by done. lia. }
  revert Hq. generalize (if bool_decide (fresh_block f1 st' a1') then 0 else 1)%nat.
  intros c Hq. case_bool_decide as Hf.
  - specialize (Hlt Hf). lia.
  - lia.
Qed.

Lemma block_loop_potential f1 f2 algo fuel : ∀ a1 a2 q st,
  (potential f1 st a1 q < fuel)%nat →
  is_Some (block_loop fuel f1 f2 algo a1 a2 q st).
Proof.
  induction fuel as [|fuel IH]; intros a1 a2 q st Hp; [lia|].
  destruct q as [|p q]; simpl; [done|].
  destruct (block_pass f1 f2 algo a1 a2 (p :: q) st) as [[[|a1' a2' q']|e] st'] eqn:E;
    simpl; [done| |done].
  apply IH. apply block_pass_potential in E. lia.
Qed.

(** The bound built into [_load_basic_block_info] is never reached. *)
Lemma block_loop_terminates f1 f2 algo a1 a2 q st :
  is_Some (block_loop (block_fuel f1 q) f1 f2 algo a1 a2 q st).
Proof.
  apply block_loop_potential. unfold potential, block_fuel.
  pose proof (unmatched_le_blocks f1 st). case_bool_decide; lia.
Qed.

Lemma block_loop_fuel_mono f1 f2 algo fuel : ∀ fuel' a1 a2 q st r,
  (fuel ≤ fuel')%nat →
  block_loop fuel f1 f2 algo a1 a2 q st = Some r →
  block_loop fuel' f1 f2 algo a1 a2 q st = Some r.
Proof.
  induction fuel as [|fuel IH]; intros fuel' a1 a2 q st r Hle.
  - destruct q; simpl; [|done]. by destruct fuel'.
  - destruct fuel' as [|fuel']; [lia|].
    destruct q as [|p q]; simpl; [done|].
    destruct (block_pass f1 f2 algo a1 a2 (p :: q) st) as [[[|a1' a2' q']|e] st'];
      simpl; try done.
    apply IH. lia.
Qed.

(** The method returns what the loop returns with any bound that is enough. *)
Lemma load_basic_block_info_loop f1 f2 a1 a2 algo q st fuel r :
  block_loop fuel f1 f2 algo a1 a2 q st = Some r →
  _load_basic_block_info f1 f2 a1 a2 algo q st = r.
Proof.
  intros Hr. unfold _load_basic_block_info.
  destruct (block_loop_terminates f1 f2 algo a1 a2 q st) as [r' Hr'].
  rewrite Hr'. simpl.
  destruct (decide (fuel ≤ block_fuel f1 q)%nat) as [Hle|Hgt].
  - apply (block_loop_fuel_mono _ _ _ _ _ _ _ _ _ _ Hle) in Hr. congruence.
  - assert (block_fuel f1 q ≤ fuel)%nat as Hle by lia.
    apply (block_loop_fuel_mono _ _ _ _ _ _ _ _ _ _ Hle) in Hr'. congruence.
Qed.

Lemma block_loop_maintains (R : relation BinDiff) `{!PreOrder R} f1 f2 algo :
  (∀ a1 a2 q, maintains R (block_pass f1 f2 algo a1 a2 q)) →
  ∀ fuel a1 a2 q st r,
    block_loop fuel f1 f2 algo a1 a2 q st = Some r → R st (snd r).
Proof.
  intros Hpass. induction fuel as [|fuel IH]; intros a1 a2 q st r.
  - destruct q; simpl; [|done]. intros [= <-]. reflexivity.
  - destruct q as [|p q]; simpl; [intros [= <-]; reflexivity|].
    pose proof (Hpass a1 a2 (p :: q) st) as H1.
    destruct (block_pass f1 f2 algo a1 a2 (p :: q) st) as [[[|a1' a2' q']|e] st'];
      simpl in *.
    + by intros [= <-].
    + intros H2. apply IH in H2. by etransitivity.
    + by intros [= <-].
Qed.

Lemma load_basic_block_info_maintains (R : relation BinDiff) `{!PreOrder R}
    f1 f2 a1 a2 algo q :
  (∀ a1 a2 q, maintains R (block_pass f1 f2 algo a1 a2 q)) →
  maintains R (_load_basic_block_info f1 f2 a1 a2 algo q).
Proof.
  intros Hpass st.
  destruct (block_loop_terminates f1 f2 algo a1 a2 q st) as [r Hr].
  rewrite (load_basic_block_info_loop _ _ _ _ _ _ _ _ _ Hr).
  by eapply block_loop_maintains.
Qed.

Lemma load_basic_block_info_block_frame f1 f2 a1 a2 algo q :
  maintains block_frame (_load_basic_block_info f1 f2 a1 a2 algo q).
Proof.
  apply load_basic_block_info_maintains; [apply _|].
  intros. apply block_pass_block_frame.
Qed.

Lemma load_basic_block_info_matches_kept f1 f2 a1 a2 algo q :
  maintains matches_kept (_load_basic_block_info f1 f2 a1 a2 algo q).
Proof.
  apply load_basic_block_info_maintains; [apply _|].
  intros. apply block_pass_matches_kept.
Qed.

#[global] Hint Resolve load_basic_block_info_block_frame
  load_basic_block_info_matches_kept : maintains.

(** ** A group whose pairs all lie in the declared blocks *)

Lemma match_blocks_ok f1 f2 a1 a2 algo st bb1 bb2 :
  Dict.getitem (f_blocks f1) a1 = Some bb1 →
  Dict.getitem (f_blocks f2) a2 = Some bb2 →
  (is_Some (bb_match (graph st) !! primary_block f1 a1) ↔
   is_Some (bb_match (graph st) !! secondary_block f2 a2)) →
  ∃ out, match_blocks f1 f2 a1 a2 algo st =
         (Ret (bb1, bb2), blocks_matched (primary_block f1 a1) (secondary_block f2 a2) algo out st).
Proof.
  intros H1 H2 Hboth.
  destruct (match_blocks f1 f2 a1 a2 algo st) as [o st'] eqn:E.
  pose proof E as E'.
  apply match_blocks_inv in E' as [(e & -> & ->)|(b1 & b2 & out & -> & ? & ? & ->)].
  - exfalso. revert E. unfold match_blocks. unfold_monad. rewrite H1, H2.
    cbv beta iota zeta.
    destruct (bb_match (graph st) !! primary_block f1 a1) as [x1|] eqn:E1;
      destruct (bb_match (graph st) !! secondary_block f2 a2) as [x2|] eqn:E2;
      simpl; repeat (case_bool_decide; simpl); try done.
    all: intros _; rewrite ?E1, ?E2 in Hboth.
    all: first [ by destruct (proj1 Hboth) as [? [=]]; [eexists]
               | by destruct (proj2 Hboth) as [? [=]]; [eexists] ].
  - exists out. simplify_eq. done.
Qed.

Lemma drain_direct f1 f2 bb1 bb2 a1 a2 q : ∀ st,
  pairs_in_blocks bb1 bb2 q →
  drain f1 f2 bb1 bb2 a1 a2 q st =
  (Ret Exhausted, pairs_matched (primary_block f1 a1) (secondary_block f2 a2) q st).
Proof.
  induction q as [|[i1 i2] q IH]; intros st Hq.
  - simpl. unfold ret, pairs_matched. by destruct st as [? ? [] ? ? ? ? ? ?].
  - apply Forall_cons in Hq as [[Hi1 Hi2] Hq]. simpl in *.
    unfold bb_contains. rewrite !bool_decide_eq_true_2 by done. simpl.
    unfold bind, _load_instruction_info, modify_graph. rewrite IH by done.
    done.
Qed.

Lemma match_pairs_cons r1 r2 p q m :
  match_pairs r1 r2 (p :: q) m =
  match_pairs r1 r2 q (<[(r2, p.2) := (r1, p.1)]> (<[(r1, p.1) := (r2, p.2)]> m)).
Proof. reflexivity. Qed.

Lemma match_pairs_lookup_other r1 r2 q : ∀ m k,
  (∀ p, p ∈ q → k ≠ (r1, p.1) ∧ k ≠ (r2, p.2)) →
  match_pairs r1 r2 q m !! k = m !! k.
Proof.
  induction q as [|p q IH]; intros m k Hk; [done|].
  rewrite match_pairs_cons, IH.
  - destruct (Hk p) as [? ?]; [left|]. by rewrite !lookup_insert_ne.
  - intros p' Hp'. apply Hk. by right.
Qed.

Lemma match_pairs_lookup_primary r1 r2 q i1 i2 : ∀ m,
  r1 ≠ r2 → NoDup q.*1 → (i1, i2) ∈ q →
  match_pairs r1 r2 q m !! (r1, i1) = Some (r2, i2).
Proof.
  induction q as [|p q IH]; intros m Hr Hnd Hin; [by apply elem_of_nil in Hin|].
  rewrite fmap_cons in Hnd. apply NoDup_cons in Hnd as [Hp Hnd].
  apply elem_of_cons in Hin as [<-|Hin].
  - rewrite match_pairs_cons, match_pairs_lookup_other.
    + rewrite lookup_insert_ne by congruence. by rewrite lookup_insert_eq.
    + intros p' Hp'. split; [|congruence].
      intros [= ->]. apply Hp. simpl. by apply list_elem_of_fmap_2.
  - rewrite match_pairs_cons. by apply IH.
Qed.

Lemma match_pairs_lookup_secondary r1 r2 q i1 i2 : ∀ m,
  r1 ≠ r2 → NoDup q.*2 → (i1, i2) ∈ q →
  match_pairs r1 r2 q m !! (r2, i2) = Some (r1, i1).
Proof.
  induction q as [|p q IH]; intros m Hr Hnd Hin; [by apply elem_of_nil in Hin|].
  rewrite fmap_cons in Hnd. apply NoDup_cons in Hnd as [Hp Hnd].
  apply elem_of_cons in Hin as [<-|Hin].
  - rewrite match_pairs_cons, match_pairs_lookup_other.
    + by rewrite lookup_insert_eq.
    + intros p' Hp'. split; [congruence|].
      intros [= ->]. apply Hp. simpl. by apply list_elem_of_fmap_2.
  - rewrite match_pairs_cons. by apply IH.
Qed.

(** The whole call on such a group: one pass, no exception. *)
Lemma load_basic_block_info_direct f1 f2 a1 a2 algo q st bb1 bb2 :
  q ≠ [] →
  Dict.getitem (f_blocks f1) a1 = Some bb1 →
  Dict.getitem (f_blocks f2) a2 = Some bb2 →
  pairs_in_blocks bb1 bb2 q →
  (is_Some (bb_match (graph st) !! primary_block f1 a1) ↔
   is_Some (bb_match (graph st) !! secondary_block f2 a2)) →
  ∃ out, _load_basic_block_info f1 f2 a1 a2 algo q st =
    (Ret tt, pairs_matched (primary_block f1 a1) (secondary_block f2 a2) q
               (blocks_matched (primary_block f1 a1) (secondary_block f2 a2) algo out st)).
Proof.
  intros Hq H1 H2 Hin Hboth.
  destruct (match_blocks_ok f1 f2 a1 a2 algo st bb1 bb2 H1 H2 Hboth) as [out Hm].
  exists out. apply (load_basic_block_info_loop _ _ _ _ _ _ _ 1%nat).
  destruct q as [|p q]; [done|]. unfold block_loop, block_pass, bind.
  rewrite Hm. cbv beta iota. simpl fst. simpl snd.
  by rewrite drain_direct.
Qed.

(** C1 (amended).  For a group that is not empty (the extractor builds none
    that is), whose declared addresses resolve to two blocks that contain
    every instruction pair, in which no instruction address occurs twice on
    the same side, and whose two blocks are either both matched or both
    unmatched when the call starts: the call returns, [bb1.match] is [bb2] and
    [bb2.match] is [bb1], both blocks carry the decoded algorithm, every pair
    [(i1, i2)] of the group has [inst1.match = inst2] and [inst2.match = inst1],
    and [single_match] is what it was. *)
Theorem declared_blocks_group_is_matched f1 f2 a1 a2 algo q st bb1 bb2 :
  q ≠ [] →
  Dict.getitem (f_blocks f1) a1 = Some bb1 →
  Dict.getitem (f_blocks f2) a2 = Some bb2 →
  pairs_in_blocks bb1 bb2 q →
  NoDup q.*1 →
  NoDup q.*2 →
  (is_Some (bb_match (graph st) !! primary_block f1 a1) ↔
   is_Some (bb_match (graph st) !! secondary_block f2 a2)) →
  ∃ st',
    _load_basic_block_info f1 f2 a1 a2 algo q st = (Ret tt, st') ∧
    bb_match (graph st') !! primary_block f1 a1 = Some (secondary_block f2 a2) ∧
    bb_match (graph st') !! secondary_block f2 a2 = Some (primary_block f1 a1) ∧
    bb_algorithm (graph st') !! primary_block f1 a1 = Some (BasicBlockAlgorithm_of algo) ∧
    bb_algorithm (graph st') !! secondary_block f2 a2 = Some (BasicBlockAlgorithm_of algo) ∧
    (∀ i1 i2, (i1, i2) ∈ q →
       inst_match (graph st') !! (primary_block f1 a1, i1) = Some (secondary_block f2 a2, i2) ∧
       inst_match (graph st') !! (secondary_block f2 a2, i2) = Some (primary_block f1 a1, i1)) ∧
    single_match st' = single_match st.
Proof.
  intros Hq H1 H2 Hin Hnd1 Hnd2 Hboth.
  destruct (load_basic_block_info_direct f1 f2 a1 a2 algo q st bb1 bb2)
    as [out Hrun]; try done.
  eexists. split; [exact Hrun|].
  assert (primary_block f1 a1 ≠ secondary_block f2 a2) as Hne by done.
  simpl. repeat split.
  - rewrite lookup_insert_ne by done. by rewrite lookup_insert_eq.
  - by rewrite lookup_insert_eq.
  - rewrite lookup_insert_ne by done. by rewrite lookup_insert_eq.
  - by rewrite lookup_insert_eq.
  - by apply match_pairs_lookup_primary.
  - by apply match_pairs_lookup_secondary.
Qed.

Lemma declared_blocks_group_is_matched_witness :
  ∃ st',
    _load_basic_block_info Sample.f1 Sample.f2 0x1000 0x2000 2
      [(0x1000, 0x2000); (0x1004, 0x2004)] Sample.fresh = (Ret tt, st') ∧
    bb_match (graph st') !! primary_block Sample.f1 0x1000
      = Some (secondary_block Sample.f2 0x2000) ∧
    bb_match (graph st') !! secondary_block Sample.f2 0x2000
      = Some (primary_block Sample.f1 0x1000) ∧
    bb_algorithm (graph st') !! primary_block Sample.f1 0x1000
      = Some (BasicBlockAlgorithm_of 2) ∧
    bb_algorithm (graph st') !! secondary_block Sample.f2 0x2000
      = Some (BasicBlockAlgorithm_of 2) ∧
    (∀ i1 i2, (i1, i2) ∈ [(0x1000, 0x2000); (0x1004, 0x2004)] →
       inst_match (graph st') !! (primary_block Sample.f1 0x1000, i1)
         = Some (secondary_block Sample.f2 0x2000, i2) ∧
       inst_match (graph st') !! (secondary_block Sample.f2 0x2000, i2)
         = Some (primary_block Sample.f1 0x1000, i1)) ∧
    single_match st' = single_match Sample.fresh.
Proof.
  apply (declared_blocks_group_is_matched Sample.f1 Sample.f2 0x1000 0x2000 2
           [(0x1000, 0x2000); (0x1004, 0x2004)] Sample.fresh
           Sample.p1_entry Sample.p2_entry).
  - discriminate.
  - reflexivity.
  - reflexivity.
  - apply (bool_decide_unpack _). vm_compute. exact I.
  - apply (bool_decide_unpack _). vm_compute. exact I.
  - apply (bool_decide_unpack _). vm_compute. exact I.
  - apply (bool_decide_unpack _). vm_compute. exact I.
Defined.

(** C1, as stated, fails on a group that names one instruction twice: both
    pairs lie in the declared blocks, the call returns, and the instruction
    at [0x1000] ends up matched with the instruction of the later pair, so the
    earlier pair is not a symmetric match. *)
Lemma repeated_instruction_keeps_last_match :
  Dict.getitem (f_blocks Sample.f1) 0x1000 = Some Sample.p1_entry ∧
  Dict.getitem (f_blocks Sample.f2) 0x2000 = Some Sample.p2_entry ∧
  pairs_in_blocks Sample.p1_entry Sample.p2_entry [(0x1000, 0x2000); (0x1000, 0x2004)] ∧
  ∃ st',
    _load_basic_block_info Sample.f1 Sample.f2 0x1000 0x2000 2
      [(0x1000, 0x2000); (0x1000, 0x2004)] Sample.fresh = (Ret tt, st') ∧
    ¬ (∀ i1 i2, (i1, i2) ∈ [(0x1000, 0x2000); (0x1000, 0x2004)] →
         inst_match (graph st') !! (primary_block Sample.f1 0x1000, i1)
           = Some (secondary_block Sample.f2 0x2000, i2) ∧
         inst_match (graph st') !! (secondary_block Sample.f2 0x2000, i2)
           = Some (primary_block Sample.f1 0x1000, i1)).
Proof.
  split; [reflexivity|]. split; [reflexivity|].
  split; [apply (bool_decide_unpack _); vm_compute; exact I|].
  eexists. split; [vm_compute; reflexivity|].
  intros H. destruct (H 0x1000 0x2000) as [H1 _]; [left|].
  vm_compute in H1. discriminate H1.
Qed.

(** ** Recovery after a failed instruction lookup *)


(** The whole call on a group of one pair that belongs to the second block
    pair while the group declares the first one: the declared blocks are
    matched, the pair is recovered, the found blocks are matched and the
    instructions inside them, and [single_match] stays empty. *)
Example recovery_end_to_end :
  ∃ st',
    _load_basic_block_info Sample.f1 Sample.f2 0x1000 0x2000 2
      [(0x100c, 0x200c)] Sample.fresh = (Ret tt, st') ∧
    bb_match (graph st') !! primary_block Sample.f1 0x1008
      = Some (secondary_block Sample.f2 0x2008) ∧
    inst_match (graph st') !! (primary_block Sample.f1 0x1008, 0x100c)
      = Some (secondary_block Sample.f2 0x2008, 0x200c) ∧
    single_match st' = [].
Proof. eexists. split; [vm_compute; reflexivity|]. vm_compute. done. Qed.

(** ** Conflicts *)

(** When both blocks already have a match and they are not matched with
    each other, the conflict is printed and both matches are overwritten. *)
Lemma match_blocks_conflict_overwrites f1 f2 a1 a2 algo st bb1 bb2 x1 x2 :
  Dict.getitem (f_blocks f1) a1 = Some bb1 →
  Dict.getitem (f_blocks f2) a2 = Some bb2 →
  bb_match (graph st) !! primary_block f1 a1 = Some x1 →
  bb_match (graph st) !! secondary_block f2 a2 = Some x2 →
  x1 ≠ secondary_block f2 a2 ∨ x2 ≠ primary_block f1 a1 →
  match_blocks f1 f2 a1 a2 algo st =
  (Ret (bb1, bb2),
   blocks_matched (primary_block f1 a1) (secondary_block f2 a2) algo
     [WillMatchAnother (primary_block f1 a1) x1 (secondary_block f2 a2) x2] st).
Proof.
  intros H1 H2 Hm1 Hm2 Hne.
  unfold match_blocks. unfold_monad. rewrite H1, H2. cbv beta iota zeta.
  rewrite Hm1, Hm2. rewrite bool_decide_eq_true_2 by by eexists. simpl.
  destruct Hne as [Hne|Hne].
  - rewrite (bool_decide_eq_true_2 (Some x1 ≠ _)) by congruence. done.
  - rewrite (bool_decide_eq_true_2 (Some x2 ≠ _)) by congruence.
    by rewrite orb_true_r.
Qed.

(** When exactly one of the two blocks has a match, formatting the conflict
    line reads [.addr] of the missing match: the method raises and nothing is
    overwritten. *)
Lemma match_blocks_one_sided_raises f1 f2 a1 a2 algo st bb1 bb2 :
  Dict.getitem (f_blocks f1) a1 = Some bb1 →
  Dict.getitem (f_blocks f2) a2 = Some bb2 →
  ¬ (is_Some (bb_match (graph st) !! primary_block f1 a1) ↔
     is_Some (bb_match (graph st) !! secondary_block f2 a2)) →
  match_blocks f1 f2 a1 a2 algo st = (Raise AttributeError, st).
Proof.
  intros H1 H2 Hone.
  unfold match_blocks. unfold_monad. rewrite H1, H2. cbv beta iota zeta.
  destruct (bb_match (graph st) !! primary_block f1 a1) as [x1|] eqn:E1;
    destruct (bb_match (graph st) !! secondary_block f2 a2) as [x2|] eqn:E2.
  - exfalso. apply Hone. split; by eexists.
  - rewrite bool_decide_eq_true_2 by by eexists. simpl.
    rewrite orb_true_r. done.
  - rewrite (bool_decide_eq_true_2 (is_Some (Some x2))) by by eexists.
    rewrite orb_true_r. simpl. done.
  - exfalso. apply Hone. split; by intros [? ?].
Qed.

(** C3, at the failing input: the entry blocks are matched with each other,
    and a second group declares the primary entry block against the next
    secondary block, which has no match.  The conflict is not reported and the
    match is not overwritten: [AttributeError] leaves the method and the state
    is the one before the call. *)
Theorem one_sided_conflict_raises :
  bb_match (graph Sample.entry_matched) !! primary_block Sample.f1 0x1000
    = Some (secondary_block Sample.f2 0x2000) ∧
  bb_match (graph Sample.entry_matched) !! secondary_block Sample.f2 0x2008 = None ∧
  _load_basic_block_info Sample.f1 Sample.f2 0x1000 0x2008 2 [(0x1000, 0x2008)]
    Sample.entry_matched
  = (Raise AttributeError, Sample.entry_matched).
Proof. vm_compute. done. Qed.

(** ** Addresses found nowhere *)

(** The sibling path: when one address of the pair is in its current block
    and the other one is not, the pair is appended to [single_match]. *)
Lemma recover_one_missing f1 f2 bb1 bb2 a1 a2 i1 i2 rest st :
  bb_contains bb1 i1 = true ∨ bb_contains bb2 i2 = true →
  recover f1 f2 bb1 bb2 a1 a2 i1 i2 rest st =
  (Ret (Break a1 a2 rest), snd (single_match_append (i1, i2) st)).
Proof.
  intros H. unfold recover.
  assert (negb (bb_contains bb1 i1) && negb (bb_contains bb2 i2) = false) as ->.
  { destruct H as [-> | ->]; [done|]. by rewrite andb_false_r. }
  done.
Qed.

(** When both addresses are missing from the current blocks and the first
    one is in no block of [f1], the list of candidates is empty and indexing
    it raises. *)
Lemma recover_orphan_raises f1 f2 bb1 bb2 a1 a2 i1 i2 rest st :
  bb_contains bb1 i1 = false →
  bb_contains bb2 i2 = false →
  owning_block_addr f1 i1 = None →
  recover f1 f2 bb1 bb2 a1 a2 i1 i2 rest st = (Raise IndexError, st).
Proof.
  intros Hc1 Hc2 Ho. unfold recover. rewrite Hc1, Hc2, Ho. done.
Qed.

(** C4, at the failing input: a pair whose addresses are in no block of
    their functions.  Nothing is appended to [single_match]; [IndexError]
    leaves the method. *)
Theorem orphan_pair_raises :
  owning_block_addr Sample.f1 0x5000 = None ∧
  owning_block_addr Sample.f2 0x6000 = None ∧
  ∃ st',
    _load_basic_block_info Sample.f1 Sample.f2 0x1000 0x2000 2
      [(0x5000, 0x6000)] Sample.fresh = (Raise IndexError, st') ∧
    single_match st' = [].
Proof.
  split; [reflexivity|]. split; [reflexivity|].
  eexists. split; [vm_compute; reflexivity|reflexivity].
Qed.

(** ** Function records *)

Lemma function_at_key p addr f : function_at p addr = Some f → f_key f = addr.
Proof.
  unfold function_at. destruct (Dict.getitem p addr); simpl; [|done].
  by intros [= <-].
Qed.

Lemma maintains_lookup_bind {A B} (R : relation BinDiff) `{!PreOrder R}
    e (o : option A) (k : A → M B) :
  (∀ a, o = Some a → maintains R (k a)) →
  maintains R (bind (lookup_or_raise e o) k).
Proof.
  intros Hk. destruct o as [a|]; intros st.
  - apply (Hk a eq_refl st).
  - reflexivity.
Qed.

Lemma load_groups_maintains (R : relation BinDiff) `{!PreOrder R} f1 f2 groups :
  (∀ a1 a2 algo q, maintains R (_load_basic_block_info f1 f2 a1 a2 algo q)) →
  maintains R (load_groups f1 f2 groups).
Proof.
  intros Hbb. induction groups as [|[[[a1 a2] algo] q] groups IH]; simpl;
    solve_maintains.
Qed.

Lemma load_function_info_matches_kept d : maintains matches_kept (_load_function_info d).
Proof.
  unfold _load_function_info. solve_maintains; try by intros st r.
  apply load_groups_maintains; [apply _|]. intros. solve_maintains.
Qed.

Lemma load_function_info_session_frame d : maintains session_frame (_load_function_info d).
Proof.
  unfold _load_function_info. solve_maintains; try (by intros st; split).
  apply load_groups_maintains; [apply _|]. intros ? ? ? ? st.
  apply block_frame_session_frame, load_basic_block_info_block_frame.
Qed.

(** A function record writes the function annotations of its two functions
    only. *)
Lemma load_function_info_fn_same_at d r :
  r ≠ (Primary, fd_addr1 d) → r ≠ (Secondary, fd_addr2 d) →
  maintains (fn_same_at r) (_load_function_info d).
Proof.
  intros Hr1 Hr2. unfold _load_function_info.
  apply maintains_bind; [apply _|solve_maintains|intros st0].
  apply maintains_lookup_bind; [apply _|]. intros f1 E1%function_at_key.
  apply maintains_lookup_bind; [apply _|]. intros f2 E2%function_at_key.
  rewrite E1, E2.
  solve_maintains;
    try (intros st; split; simpl; try done; by rewrite !lookup_insert_ne by done).
  apply load_groups_maintains; [apply _|]. intros ? ? ? ? st.
  apply block_frame_fn_same_at, load_basic_block_info_block_frame.
Qed.

Lemma load_functions_maintains (R : relation BinDiff) `{!PreOrder R} funs :
  (∀ d, d ∈ funs → maintains R (_load_function_info d)) →
  maintains R (load_functions funs).
Proof.
  induction funs as [|d funs IH]; intros Hd; simpl; [solve_maintains|].
  apply maintains_bind; [apply _|apply Hd; left|intros _].
  apply IH. intros d' Hd'. apply Hd. by right.
Qed.

Lemma load_metadata_matches_kept strptime db :
  maintains matches_kept (_load_metadata strptime db).
Proof. unfold _load_metadata. solve_maintains. by intros st r. Qed.

Lemma set_program_defaults_matches_kept : maintains matches_kept set_program_defaults.
Proof. unfold set_program_defaults. solve_maintains; by intros st r. Qed.

(** No method ever unsets the match of a basic block. *)
Lemma perform_matches_kept op : maintains matches_kept (perform op).
Proof.
  destruct op; simpl.
  - apply load_metadata_matches_kept.
  - apply set_program_defaults_matches_kept.
  - apply load_function_info_matches_kept.
  - apply load_basic_block_info_matches_kept.
  - apply load_instruction_matches_kept.
Qed.

Lemma perform_all_matches_kept ops : ∀ st, matches_kept st (perform_all ops st).
Proof.
  induction ops as [|op ops IH]; intros st; [done|].
  unfold perform_all. simpl. fold (perform_all ops).
  etransitivity; [apply perform_matches_kept | apply IH].
Qed.

(** C10.  When [bb1] is matched with a block [bbX] of the secondary program
    that is not [bb2], and the pass on [(bb1, bb2)] gets past the conflict
    check and overwrites: at the end of the pass [bb1.match] is [bb2],
    [bb2.match] is [bb1], the match of every other block is what it was, and
    in particular [bbX.match] is still [bb1].  Whatever methods are called
    afterwards, the match of [bbX] is never unset. *)
Theorem displaced_block_keeps_stale_match f1 f2 a1 a2 algo q st bbs st1 kX aX :
  bb_match (graph st) !! primary_block f1 a1 = Some (Secondary, kX, aX) →
  (Secondary, kX, aX) ≠ secondary_block f2 a2 →
  bb_match (graph st) !! (Secondary, kX, aX) = Some (primary_block f1 a1) →
  match_blocks f1 f2 a1 a2 algo st = (Ret bbs, st1) →
  bb_match (graph (snd (block_pass f1 f2 algo a1 a2 q st))) !! primary_block f1 a1
    = Some (secondary_block f2 a2) ∧
  bb_match (graph (snd (block_pass f1 f2 algo a1 a2 q st))) !! secondary_block f2 a2
    = Some (primary_block f1 a1) ∧
  bb_match (graph (snd (block_pass f1 f2 algo a1 a2 q st))) !! (Secondary, kX, aX)
    = Some (primary_block f1 a1) ∧
  (∀ r, r ≠ primary_block f1 a1 → r ≠ secondary_block f2 a2 →
        bb_match (graph (snd (block_pass f1 f2 algo a1 a2 q st))) !! r
        = bb_match (graph st) !! r) ∧
  (∀ ops, is_Some (bb_match
             (graph (perform_all ops (snd (block_pass f1 f2 algo a1 a2 q st))))
             !! (Secondary, kX, aX))).
Proof.
  intros Hm1 Hne HmX Hmatch.
  assert (bb_match (graph (snd (block_pass f1 f2 algo a1 a2 q st)))
          = <[secondary_block f2 a2 := primary_block f1 a1]>
              (<[primary_block f1 a1 := secondary_block f2 a2]> (bb_match (graph st))))
    as Hpass.
  { unfold block_pass, bind. rewrite Hmatch.
    rewrite (drain_same_block_matches f1 f2 (fst bbs) (snd bbs) a1 a2 q st1).
    apply match_blocks_inv in Hmatch
      as [(e & ? & _)|(bb1 & bb2 & out & _ & _ & _ & ->)]; done. }
  assert (bb_match (graph (snd (block_pass f1 f2 algo a1 a2 q st))) !! (Secondary, kX, aX)
          = Some (primary_block f1 a1)) as HX.
  { rewrite Hpass. by rewrite !lookup_insert_ne by done. }
  repeat split.
  - rewrite Hpass, lookup_insert_ne by done. by rewrite lookup_insert_eq.
  - by rewrite Hpass, lookup_insert_eq.
  - done.
  - intros r Hr1 Hr2. by rewrite Hpass, !lookup_insert_ne by done.
  - intros ops. apply perform_all_matches_kept. eexists. exact HX.
Qed.

Lemma displaced_block_keeps_stale_match_witness :
  bb_match (graph (snd (block_pass Sample.f1 Sample.f2 2 0x1000 0x2008
                          [(0x1000, 0x2008)] Sample.all_matched)))
    !! primary_block Sample.f1 0x1000 = Some (secondary_block Sample.f2 0x2008) ∧
  bb_match (graph (snd (block_pass Sample.f1 Sample.f2 2 0x1000 0x2008
                          [(0x1000, 0x2008)] Sample.all_matched)))
    !! secondary_block Sample.f2 0x2008 = Some (primary_block Sample.f1 0x1000) ∧
  bb_match (graph (snd (block_pass Sample.f1 Sample.f2 2 0x1000 0x2008
                          [(0x1000, 0x2008)] Sample.all_matched)))
    !! (Secondary, 0x2000, 0x2000) = Some (primary_block Sample.f1 0x1000) ∧
  (∀ r, r ≠ primary_block Sample.f1 0x1000 → r ≠ secondary_block Sample.f2 0x2008 →
        bb_match (graph (snd (block_pass Sample.f1 Sample.f2 2 0x1000 0x2008
                                [(0x1000, 0x2008)] Sample.all_matched))) !! r
        = bb_match (graph Sample.all_matched) !! r) ∧
  (∀ ops, is_Some (bb_match
             (graph (perform_all ops
                (snd (block_pass Sample.f1 Sample.f2 2 0x1000 0x2008
                        [(0x1000, 0x2008)] Sample.all_matched))))
             !! (Secondary, 0x2000, 0x2000))).
Proof.
  apply (displaced_block_keeps_stale_match Sample.f1 Sample.f2 0x1000 0x2008 2
           [(0x1000, 0x2008)] Sample.all_matched
           (Sample.p1_entry, Sample.p2_next)
           (blocks_matched (primary_block Sample.f1 0x1000)
              (secondary_block Sample.f2 0x2008) 2
              [WillMatchAnother (primary_block Sample.f1 0x1000)
                 (secondary_block Sample.f2 0x2000)
                 (secondary_block Sample.f2 0x2008)
                 (primary_block Sample.f1 0x1008)] Sample.all_matched)
           0x2000 0x2000).
  - vm_compute. reflexivity.
  - discriminate.
  - vm_compute. reflexivity.
  - vm_compute. reflexivity.
Defined.

(** ** The constructor *)

#[global] Instance same_programs_preorder : PreOrder same_programs.
Proof.
  split.
  - by intros st.
  - intros st1 st2 st3 [? ?] [? ?]. split; congruence.
Qed.

Lemma session_frame_same_programs st st' : session_frame st st' → same_programs st st'.
Proof. intros []. by split. Qed.

Lemma load_and_apply_metadata_same_programs strptime db :
  maintains same_programs (load_and_apply_metadata strptime db).
Proof.
  unfold load_and_apply_metadata, _load_metadata, set_program_defaults.
  solve_maintains; by intros st.
Qed.

Lemma load_functions_session_frame funs : maintains session_frame (load_functions funs).
Proof.
  apply load_functions_maintains; [apply _|].
  intros d _. apply load_function_info_session_frame.
Qed.

(** A record that names a missing function raises [KeyError] at once. *)
Lemma load_function_info_missing d st :
  function_missing (primary st) (secondary st) d →
  _load_function_info d st = (Raise KeyError, st).
Proof.
  intros Hmiss. unfold _load_function_info. unfold_monad.
  destruct (function_at (primary st) (fd_addr1 d)) as [f1|] eqn:E1; [|done].
  destruct Hmiss as [Hmiss|Hmiss]; [congruence|].
  cbv beta iota. rewrite Hmiss. done.
Qed.

Lemma load_functions_app pre post st :
  load_functions (pre ++ post) st =
  match load_functions pre st with
  | (Ret _, st1) => load_functions post st1
  | (Raise e, st1) => (Raise e, st1)
  end.
Proof.
  revert st. induction pre as [|d pre IH]; intros st; simpl; [done|].
  unfold bind. destruct (_load_function_info d st) as [[[]|e] st1]; [apply IH|done].
Qed.

Lemma init_unfold strptime p1 p2 g db st0 :
  load_and_apply_metadata strptime db (fresh_session p1 p2 g) = (Ret tt, st0) →
  __init__ strptime p1 p2 g db =
  match extract db with
  | Some funs => load_functions (Dict.values funs) st0
  | None => (Raise KeyError, st0)
  end.
Proof.
  unfold __init__, load_and_apply_metadata, bind. intros H.
  destruct (_load_metadata strptime db (fresh_session p1 p2 g)) as [[[]|e] st] eqn:E1;
    [|done].
  destruct (set_program_defaults st) as [[[]|e] st'] eqn:E2; simplify_eq.
  by destruct (extract db).
Qed.

(** C5 (amended).  A function record whose [address1] is absent from the
    primary program or whose [address2] is absent from the secondary program
    aborts the construction: when the metadata loads, the records before it
    load, and the record itself names a missing function, [__init__] raises
    [KeyError] in the state the earlier records left, so no session is built
    and the records after it are not processed. *)
Theorem missing_function_aborts_construction
    strptime p1 p2 g db funs pre d post st0 st1 :
  load_and_apply_metadata strptime db (fresh_session p1 p2 g) = (Ret tt, st0) →
  extract db = Some funs →
  Dict.values funs = pre ++ d :: post →
  load_functions pre st0 = (Ret tt, st1) →
  function_missing p1 p2 d →
  __init__ strptime p1 p2 g db = (Raise KeyError, st1).
Proof.
  intros Hmd Hex Hfuns Hpre Hmiss.
  rewrite (init_unfold _ _ _ _ _ _ Hmd), Hex, Hfuns, load_functions_app, Hpre.
  simpl. unfold bind. rewrite load_function_info_missing; [done|].
  pose proof (load_and_apply_metadata_same_programs strptime db (fresh_session p1 p2 g))
    as [Hp1 Hp2].
  rewrite Hmd in Hp1, Hp2. simpl in Hp1, Hp2.
  pose proof (load_functions_session_frame pre st0) as [Hq1 Hq2 _ _ _ _].
  rewrite Hpre in Hq1, Hq2. simpl in Hq1, Hq2.
  by rewrite Hq1, Hq2, Hp1, Hp2.
Qed.

Lemma missing_function_aborts_construction_witness :
  __init__ SampleStore.strptime Sample.p1 Sample.p2 no_annotations SampleStore.db_missing
  = (Raise KeyError,
     snd (load_and_apply_metadata SampleStore.strptime SampleStore.db_missing
            (fresh_session Sample.p1 Sample.p2 no_annotations))).
Proof.
  apply (missing_function_aborts_construction SampleStore.strptime Sample.p1 Sample.p2
           no_annotations SampleStore.db_missing
           [(1, {| fd_addr1 := 0x9000; fd_addr2 := 0x2000; fd_similarity := 1 # 2;
                   fd_confidence := 1 # 2; fd_algo := 1; fd_bbs := [] |});
            (2, {| fd_addr1 := 0x1000; fd_addr2 := 0x2000; fd_similarity := 19 # 20;
                   fd_confidence := 9 # 10; fd_algo := 1; fd_bbs := [] |})]
           []
           {| fd_addr1 := 0x9000; fd_addr2 := 0x2000; fd_similarity := 1 # 2;
              fd_confidence := 1 # 2; fd_algo := 1; fd_bbs := [] |}
           [{| fd_addr1 := 0x1000; fd_addr2 := 0x2000; fd_similarity := 19 # 20;
               fd_confidence := 9 # 10; fd_algo := 1; fd_bbs := [] |}]
           (snd (load_and_apply_metadata SampleStore.strptime SampleStore.db_missing
                   (fresh_session Sample.p1 Sample.p2 no_annotations)))).
  - vm_compute. reflexivity.
  - reflexivity.
  - reflexivity.
  - reflexivity.
  - left. reflexivity.
Defined.

(** C5, as stated, fails: the first record names a function that the primary
    program does not have, the second record is sound; the constructor raises
    [KeyError], and the functions of the second record are left without a
    match. *)
Lemma missing_function_stops_remaining_records :
  ∃ st,
    __init__ SampleStore.strptime Sample.p1 Sample.p2 no_annotations SampleStore.db_missing
      = (Raise KeyError, st) ∧
    function_at Sample.p1 0x9000 = None ∧
    is_Some (function_at Sample.p1 0x1000) ∧
    is_Some (function_at Sample.p2 0x2000) ∧
    fn_match (graph st) !! (Primary, 0x1000) = None ∧
    fn_match (graph st) !! (Secondary, 0x2000) = None.
Proof.
  eexists. split; [vm_compute; reflexivity|].
  split; [reflexivity|]. split; [by eexists|]. split; [by eexists|].
  split; vm_compute; reflexivity.
Qed.

(** Whatever comes before it, a record that names a missing function keeps
    the constructor from returning. *)
Lemma load_functions_missing funs d : ∀ st,
  d ∈ funs →
  function_missing (primary st) (secondary st) d →
  fst (load_functions funs st) ≠ Ret tt.
Proof.
  induction funs as [|d0 funs IH]; intros st Hin Hmiss; [by apply elem_of_nil in Hin|].
  simpl. unfold bind.
  pose proof (load_function_info_session_frame d0 st) as [Hq1 Hq2 _ _ _ _].
  destruct (_load_function_info d0 st) as [[[]|e] st1] eqn:E; [|done].
  apply elem_of_cons in Hin as [->|Hin].
  - by rewrite load_function_info_missing in E.
  - apply IH; [done|]. simpl in *. by rewrite Hq1, Hq2.
Qed.

(** ** Matched functions *)

(** A function record that loads leaves its annotations on its two
    functions. *)
Lemma load_function_info_annotates d st st' :
  _load_function_info d st = (Ret tt, st') → function_pair_annotated d st'.
Proof.
  unfold _load_function_info. unfold_monad.
  destruct (function_at (primary st) (fd_addr1 d)) as [f1|] eqn:E1; [|done].
  cbv beta iota.
  destruct (function_at (secondary st) (fd_addr2 d)) as [f2|] eqn:E2; [|done].
  cbv beta iota.
  apply function_at_key in E1, E2. rewrite E1, E2.
  match goal with
  | |- context [load_groups f1 f2 ?gs ?s] =>
      pose proof (load_groups_maintains block_frame f1 f2 gs
                    (load_basic_block_info_block_frame f1 f2) s) as Hfr;
      destruct (load_groups f1 f2 gs s) as [[[]|e] st1]
  end; [|done].
  intros [= <-]. destruct Hfr as [_ _ _ _ _ _ _ _ Hs Hc Ha Hm]. simpl in *.
  unfold function_pair_annotated. rewrite Hs, Hc, Ha, Hm.
  assert ((Primary, fd_addr1 d) ≠ (Secondary, fd_addr2 d)) as Hne by done.
  repeat split;
    first [ by rewrite lookup_insert_eq
          | rewrite lookup_insert_ne by done; by rewrite lookup_insert_eq ].
Qed.

Lemma function_pair_annotated_same d st st' :
  fn_same_at (Primary, fd_addr1 d) st st' →
  fn_same_at (Secondary, fd_addr2 d) st st' →
  function_pair_annotated d st → function_pair_annotated d st'.
Proof.
  intros [Hs1 Hc1 Ha1 Hm1] [Hs2 Hc2 Ha2 Hm2] (Gm1 & Gm2 & Gs1 & Gs2 & Gc1 & Gc2 & Ga1 & Ga2).
  repeat split.
  - exact (eq_trans Hm1 Gm1).
  - exact (eq_trans Hm2 Gm2).
  - exact (eq_trans Hs1 Gs1).
  - exact (eq_trans Hs2 Gs2).
  - exact (eq_trans Hc1 Gc1).
  - exact (eq_trans Hc2 Gc2).
  - exact (eq_trans Ha1 Ga1).
  - exact (eq_trans Ha2 Ga2).
Qed.

Lemma load_functions_annotates funs : ∀ st st',
  load_functions funs st = (Ret tt, st') →
  NoDup (fd_addr1 <$> funs) →
  NoDup (fd_addr2 <$> funs) →
  ∀ d, d ∈ funs → function_pair_annotated d st'.
Proof.
  induction funs as [|d0 funs IH]; intros st st' Hrun Hnd1 Hnd2 d Hin;
    [by apply elem_of_nil in Hin|].
  rewrite fmap_cons in Hnd1, Hnd2.
  apply NoDup_cons in Hnd1 as [Hd1 Hnd1]. apply NoDup_cons in Hnd2 as [Hd2 Hnd2].
  simpl in Hrun. unfold bind in Hrun.
  destruct (_load_function_info d0 st) as [[[]|e] st1] eqn:E; [|done].
  apply elem_of_cons in Hin as [->|Hin]; [|by eapply IH].
  apply load_function_info_annotates in E.
  assert (∀ r, (∀ d', d' ∈ funs → r ≠ (Primary, fd_addr1 d') ∧ r ≠ (Secondary, fd_addr2 d')) →
               fn_same_at r st1 st') as Hsame.
  { intros r Hr.
    pose proof (load_functions_maintains (fn_same_at r) funs) as Hm.
    specialize (Hm (λ d' Hd', load_function_info_fn_same_at d' r
                                (proj1 (Hr d' Hd')) (proj2 (Hr d' Hd'))) st1).
    by rewrite Hrun in Hm. }
  eapply function_pair_annotated_same; [apply Hsame|apply Hsame|exact E].
  - intros d' Hd'. split; [|done]. intros [= Heq]. apply Hd1. rewrite Heq.
    by apply list_elem_of_fmap_2.
  - intros d' Hd'. split; [done|]. intros [= Heq]. apply Hd2. rewrite Heq.
    by apply list_elem_of_fmap_2.
Qed.

(** C6.  When the constructor returns and no function of either program is
    named by two function records (no function conflict), every function
    record [(addr1, addr2, similarity, confidence, algorithm)] leaves
    [f1.match = f2], [f2.match = f1], and on both functions the same
    similarity and the same confidence, which are those of the record as a
    function holds them, rounded to 3 decimals, and the decoded algorithm of
    the record.  Conflicts between basic blocks do not touch the annotations
    of functions. *)
Theorem matched_functions_are_symmetric strptime p1 p2 g db funs st' d :
  __init__ strptime p1 p2 g db = (Ret tt, st') →
  extract db = Some funs →
  NoDup (fd_addr1 <$> Dict.values funs) →
  NoDup (fd_addr2 <$> Dict.values funs) →
  d ∈ Dict.values funs →
    fn_match (graph st') !! (Primary, fd_addr1 d) = Some (Secondary, fd_addr2 d) ∧
    fn_match (graph st') !! (Secondary, fd_addr2 d) = Some (Primary, fd_addr1 d) ∧
    fn_similarity (graph st') !! (Primary, fd_addr1 d) = Some (round3 (fd_similarity d)) ∧
    fn_similarity (graph st') !! (Secondary, fd_addr2 d) = Some (round3 (fd_similarity d)) ∧
    fn_confidence (graph st') !! (Primary, fd_addr1 d) = Some (round3 (fd_confidence d)) ∧
    fn_confidence (graph st') !! (Secondary, fd_addr2 d) = Some (round3 (fd_confidence d)) ∧
    fn_algorithm (graph st') !! (Primary, fd_addr1 d) = Some (FunctionAlgorithm_of (fd_algo d)) ∧
    fn_algorithm (graph st') !! (Secondary, fd_addr2 d) = Some (FunctionAlgorithm_of (fd_algo d)).
Proof.
  intros Hinit Hex Hnd1 Hnd2 Hd.
  destruct (load_and_apply_metadata strptime db (fresh_session p1 p2 g))
    as [[[]|e] st0] eqn:Hmd.
  - rewrite (init_unfold _ _ _ _ _ _ Hmd), Hex in Hinit.
    by apply (load_functions_annotates _ _ _ Hinit Hnd1 Hnd2 d Hd).
  - exfalso. revert Hinit. unfold __init__, bind.
    unfold load_and_apply_metadata, bind in Hmd.
    destruct (_load_metadata strptime db (fresh_session p1 p2 g)) as [[[]|e1] st1];
      [|done].
    destruct (set_program_defaults st1) as [[[]|e2] st2]; [done|done].
Qed.

Lemma matched_functions_are_symmetric_witness :
  fn_match (graph (snd (__init__ SampleStore.strptime Sample.p1 Sample.p2
                          no_annotations SampleStore.db)))
    !! (Primary, 0x1000) = Some (Secondary, 0x2000) ∧
  fn_match (graph (snd (__init__ SampleStore.strptime Sample.p1 Sample.p2
                          no_annotations SampleStore.db)))
    !! (Secondary, 0x2000) = Some (Primary, 0x1000) ∧
  fn_similarity (graph (snd (__init__ SampleStore.strptime Sample.p1 Sample.p2
                               no_annotations SampleStore.db)))
    !! (Primary, 0x1000) = Some (round3 (19 # 20)) ∧
  fn_similarity (graph (snd (__init__ SampleStore.strptime Sample.p1 Sample.p2
                               no_annotations SampleStore.db)))
    !! (Secondary, 0x2000) = Some (round3 (19 # 20)) ∧
  fn_confidence (graph (snd (__init__ SampleStore.strptime Sample.p1 Sample.p2
                               no_annotations SampleStore.db)))
    !! (Primary, 0x1000) = Some (round3 (9 # 10)) ∧
  fn_confidence (graph (snd (__init__ SampleStore.strptime Sample.p1 Sample.p2
                               no_annotations SampleStore.db)))
    !! (Secondary, 0x2000) = Some (round3 (9 # 10)) ∧
  fn_algorithm (graph (snd (__init__ SampleStore.strptime Sample.p1 Sample.p2
                              no_annotations SampleStore.db)))
    !! (Primary, 0x1000) = Some (FunctionAlgorithm_of 1) ∧
  fn_algorithm (graph (snd (__init__ SampleStore.strptime Sample.p1 Sample.p2
                              no_annotations SampleStore.db)))
    !! (Secondary, 0x2000) = Some (FunctionAlgorithm_of 1).
Proof.
  apply (matched_functions_are_symmetric SampleStore.strptime Sample.p1 Sample.p2
           no_annotations SampleStore.db
           (default [] (extract SampleStore.db))
           (snd (__init__ SampleStore.strptime Sample.p1 Sample.p2
                   no_annotations SampleStore.db))
           {| fd_addr1 := 0x1000; fd_addr2 := 0x2000; fd_similarity := 19 # 20;
              fd_confidence := 9 # 10; fd_algo := 1;
              fd_bbs := [(1, (0x1000, 0x2000, 2, [(0x1000, 0x2000); (0x1004, 0x2004)]))] |}).
  - vm_compute. reflexivity.
  - reflexivity.
  - apply (bool_decide_unpack _). vm_compute. exact I.
  - apply (bool_decide_unpack _). vm_compute. exact I.
  - left.
Defined.

(** The example of the spec: after the constructor the two functions, the two
    entry blocks and the four instructions are matched and [single_match] is
    empty. *)
Example spec_example_is_propagated :
  ∃ st,
    __init__ SampleStore.strptime Sample.p1 Sample.p2 no_annotations SampleStore.db
      = (Ret tt, st) ∧
    fn_match (graph st) !! (Primary, 0x1000) = Some (Secondary, 0x2000) ∧
    bb_match (graph st) !! (Primary, 0x1000, 0x1000) = Some (Secondary, 0x2000, 0x2000) ∧
    inst_match (graph st) !! (Primary, 0x1000, 0x1000, 0x1004)
      = Some (Secondary, 0x2000, 0x2000, 0x2004) ∧
    single_match st = [].
Proof. eexists. split; [vm_compute; reflexivity|]. vm_compute. done. Qed.

(** ** Rounding of the metadata *)

Lemma round_half_even_nearest (x : Q) :
  Z.abs (2 * (Qnum x - round_half_even x * Z.pos (Qden x))) ≤ Z.pos (Qden x).
Proof.
  unfold round_half_even.
  pose proof (Z.div_mod (Qnum x) (Z.pos (Qden x)) ltac:(lia)) as Hdm.
  pose proof (Z.mod_pos_bound (Qnum x) (Z.pos (Qden x)) ltac:(lia)) as Hb.
  destruct (Z.compare_spec (2 * (Qnum x `mod` Z.pos (Qden x))) (Z.pos (Qden x)));
    try destruct (Z.even _); nia.
Qed.

Lemma round_half_even_nonneg (x : Q) : 0 ≤ Qnum x → 0 ≤ round_half_even x.
Proof.
  intros Hx. unfold round_half_even.
  pose proof (Z.div_pos (Qnum x) (Z.pos (Qden x)) Hx ltac:(lia)).
  destruct (_ ?= _); try destruct (Z.even _); lia.
Qed.

Lemma round_half_even_upper (x : Q) (k : Z) :
  Qnum x ≤ k * Z.pos (Qden x) → round_half_even x ≤ k.
Proof.
  intros Hx. unfold round_half_even.
  pose proof (Z.div_mod (Qnum x) (Z.pos (Qden x)) ltac:(lia)) as Hdm.
  pose proof (Z.mod_pos_bound (Qnum x) (Z.pos (Qden x)) ltac:(lia)) as Hb.
  destruct (Z.compare_spec (2 * (Qnum x `mod` Z.pos (Qden x))) (Z.pos (Qden x)));
    try destruct (Z.even _); nia.
Qed.

(** A value of [[0, 1]] is rounded to a value of [[0, 1]]. *)
Lemma round3_unit_interval (x : Q) :
  (0 <= x)%Q → (x <= 1)%Q → (0 <= round3 x)%Q ∧ (round3 x <= 1)%Q.
Proof.
  unfold Qle, round3. simpl. intros H0 H1.
  assert (0 ≤ round_half_even (x * 1000)).
  { apply round_half_even_nonneg. simpl. lia. }
  assert (round_half_even (x * 1000) ≤ 1000).
  { apply round_half_even_upper. simpl. lia. }
  lia.
Qed.

(** The rounded value is within half a thousandth of the value. *)
Lemma round3_nearest (x : Q) : (Qabs (x - round3 x) <= 1 # 2000)%Q.
Proof.
  pose proof (round_half_even_nearest (x * 1000)) as H. simpl in H.
  unfold round3, Qle, Qabs, Qminus, Qplus, Qopp. simpl.
  set (m := round_half_even (x * 1000)) in *. lia.
Qed.
Lemma load_and_apply_metadata_inv strptime db st0 st row :
  head (metadata db) = Some row →
  load_and_apply_metadata strptime db st0 = (Ret tt, st) →
  similarity st = Some (round3 (md_similarity row)) ∧
  confidence st = Some (round3 (md_confidence row)) ∧
  p_similarity (graph st) !! Primary = Some (round3 (md_similarity row)) ∧
  p_similarity (graph st) !! Secondary = Some (round3 (md_similarity row)) ∧
  p_confidence (graph st) !! Primary = Some (round3 (md_confidence row)) ∧
  p_confidence (graph st) !! Secondary = Some (round3 (md_confidence row)).
Proof.
  intros Hrow. unfold load_and_apply_metadata, _load_metadata, set_program_defaults.
  unfold_monad. rewrite Hrow. cbv beta iota.
  destruct (strptime (md_created row)); [|done]. cbv beta iota.
  destruct (strptime (md_modified row)); [|done]. cbv beta iota.
  intros [= <-]. simpl. repeat split.
  - rewrite lookup_partial_alter_ne by done. by rewrite lookup_partial_alter_eq.
  - by rewrite lookup_partial_alter_eq.
  - rewrite lookup_partial_alter_ne by done. by rewrite lookup_partial_alter_eq.
  - by rewrite lookup_partial_alter_eq.
Qed.

Lemma init_session_frame strptime p1 p2 g db st :
  load_and_apply_metadata strptime db (fresh_session p1 p2 g) = (Ret tt, st) →
  session_frame st (snd (__init__ strptime p1 p2 g db)).
Proof.
  intros Hmd. rewrite (init_unfold _ _ _ _ _ _ Hmd).
  destruct (extract db) as [funs|]; [|reflexivity].
  apply load_functions_session_frame.
Qed.

(** C7 (amended).  After the metadata is loaded, the similarity and the
    confidence of the session are multiples of a thousandth, within half a
    thousandth of the stored values, both programs carry them, and they are
    still there on the session and on both programs when the constructor ends,
    with or without an exception.  They lie in [[0, 1]] when the values stored
    in the metadata row lie in [[0, 1]]. *)
Theorem metadata_is_rounded_and_applied strptime p1 p2 g db row st :
  head (metadata db) = Some row →
  load_and_apply_metadata strptime db (fresh_session p1 p2 g) = (Ret tt, st) →
  ∃ s c : Z,
    similarity st = Some (s # 1000) ∧
    confidence st = Some (c # 1000) ∧
    (Qabs (md_similarity row - (s # 1000)) <= 1 # 2000)%Q ∧
    (Qabs (md_confidence row - (c # 1000)) <= 1 # 2000)%Q ∧
    p_similarity (graph st) !! Primary = Some (s # 1000) ∧
    p_similarity (graph st) !! Secondary = Some (s # 1000) ∧
    p_confidence (graph st) !! Primary = Some (c # 1000) ∧
    p_confidence (graph st) !! Secondary = Some (c # 1000) ∧
    similarity (snd (__init__ strptime p1 p2 g db)) = Some (s # 1000) ∧
    confidence (snd (__init__ strptime p1 p2 g db)) = Some (c # 1000) ∧
    p_similarity (graph (snd (__init__ strptime p1 p2 g db))) = p_similarity (graph st) ∧
    p_confidence (graph (snd (__init__ strptime p1 p2 g db))) = p_confidence (graph st) ∧
    ((0 <= md_similarity row)%Q → (md_similarity row <= 1)%Q →
     (0 <= s # 1000)%Q ∧ (s # 1000 <= 1)%Q) ∧
    ((0 <= md_confidence row)%Q → (md_confidence row <= 1)%Q →
     (0 <= c # 1000)%Q ∧ (c # 1000 <= 1)%Q).
Proof.
  intros Hrow Hmd.
  destruct (load_and_apply_metadata_inv _ _ _ _ _ Hrow Hmd)
    as (Hs & Hc & Hps1 & Hps2 & Hpc1 & Hpc2).
  destruct (init_session_frame _ _ _ _ _ _ Hmd) as [_ _ Hfs Hfc Hfps Hfpc].
  exists (round_half_even (md_similarity row * 1000)),
         (round_half_even (md_confidence row * 1000)).
  fold (round3 (md_similarity row)). fold (round3 (md_confidence row)).
  pose proof (round3_nearest (md_similarity row)) as Hns.
  pose proof (round3_nearest (md_confidence row)) as Hnc.
  rewrite Hfs, Hfc.
  repeat (split; [done|]).
  split; intros Hlo Hhi; by apply round3_unit_interval.
Qed.

Lemma metadata_is_rounded_and_applied_witness :
  ∃ s c : Z,
    similarity (snd (load_and_apply_metadata SampleStore.strptime SampleStore.db
                       (fresh_session Sample.p1 Sample.p2 no_annotations)))
      = Some (s # 1000) ∧
    confidence (snd (load_and_apply_metadata SampleStore.strptime SampleStore.db
                       (fresh_session Sample.p1 Sample.p2 no_annotations)))
      = Some (c # 1000) ∧
    (Qabs ((19 # 20) - (s # 1000)) <= 1 # 2000)%Q ∧
    (Qabs ((9 # 10) - (c # 1000)) <= 1 # 2000)%Q ∧
    p_similarity (graph (snd (load_and_apply_metadata SampleStore.strptime SampleStore.db
                                (fresh_session Sample.p1 Sample.p2 no_annotations))))
      !! Primary = Some (s # 1000) ∧
    p_similarity (graph (snd (load_and_apply_metadata SampleStore.strptime SampleStore.db
                                (fresh_session Sample.p1 Sample.p2 no_annotations))))
      !! Secondary = Some (s # 1000) ∧
    p_confidence (graph (snd (load_and_apply_metadata SampleStore.strptime SampleStore.db
                                (fresh_session Sample.p1 Sample.p2 no_annotations))))
      !! Primary = Some (c # 1000) ∧
    p_confidence (graph (snd (load_and_apply_metadata SampleStore.strptime SampleStore.db
                                (fresh_session Sample.p1 Sample.p2 no_annotations))))
      !! Secondary = Some (c # 1000) ∧
    similarity (snd (__init__ SampleStore.strptime Sample.p1 Sample.p2
                       no_annotations SampleStore.db)) = Some (s # 1000) ∧
    confidence (snd (__init__ SampleStore.strptime Sample.p1 Sample.p2
                       no_annotations SampleStore.db)) = Some (c # 1000) ∧
    p_similarity (graph (snd (__init__ SampleStore.strptime Sample.p1 Sample.p2
                                no_annotations SampleStore.db)))
      = p_similarity (graph (snd (load_and_apply_metadata SampleStore.strptime
                                    SampleStore.db
                                    (fresh_session Sample.p1 Sample.p2 no_annotations)))) ∧
    p_confidence (graph (snd (__init__ SampleStore.strptime Sample.p1 Sample.p2
                                no_annotations SampleStore.db)))
      = p_confidence (graph (snd (load_and_apply_metadata SampleStore.strptime
                                    SampleStore.db
                                    (fresh_session Sample.p1 Sample.p2 no_annotations)))) ∧
    ((0 <= 19 # 20)%Q → (19 # 20 <= 1)%Q → (0 <= s # 1000)%Q ∧ (s # 1000 <= 1)%Q) ∧
    ((0 <= 9 # 10)%Q → (9 # 10 <= 1)%Q → (0 <= c # 1000)%Q ∧ (c # 1000 <= 1)%Q).
Proof.
  apply (metadata_is_rounded_and_applied SampleStore.strptime Sample.p1 Sample.p2
           no_annotations SampleStore.db (SampleStore.md (19 # 20) (9 # 10))
           (snd (load_and_apply_metadata SampleStore.strptime SampleStore.db
                   (fresh_session Sample.p1 Sample.p2 no_annotations)))).
  - reflexivity.
  - vm_compute. reflexivity.
Defined.

(** C7, as stated, fails: nothing clamps or checks the stored values.  A
    store whose metadata holds the similarity [3/2] loads, the constructor
    returns, and the similarity of the session and of both programs is
    [1.500], which is not in [[0, 1]]. *)
Lemma stored_similarity_is_not_clamped :
  ∃ st,
    __init__ SampleStore.strptime Sample.p1 Sample.p2 no_annotations
      SampleStore.db_out_of_range = (Ret tt, st) ∧
    similarity st = Some (1500 # 1000) ∧
    p_similarity (graph st) !! Primary = Some (1500 # 1000) ∧
    p_similarity (graph st) !! Secondary = Some (1500 # 1000) ∧
    ¬ (1500 # 1000 <= 1)%Q.
Proof.
  eexists. split; [vm_compute; reflexivity|].
  split; [reflexivity|]. split; [reflexivity|]. split; [reflexivity|].
  vm_compute. intros H. by apply H.
Qed.

(** ** The facade *)

Module FacadeProperties.
Import Facade.

(** When the method returns [0], the temporary directory is gone and a
    file was moved to [out_diff]. *)
Lemma start_diffing_success run f1 f2 w w' :
  _start_diffing run f1 f2 w = (0, w') →
  tmp_dir w' = None ∧ is_Some (out_diff w').
Proof.
  unfold _start_diffing. case_bool_decide as Hrc.
  - intros [= Hz _]. congruence.
  - destruct (find _ (output run)); [intros [= <-]; simpl; by eauto|].
    destruct (find _ (output run)); [|done].
    intros [= <-]. simpl. by eauto.
Qed.

(** When the differ fails, the method returns its exit code and the
    temporary directory stays. *)
Lemma start_diffing_differ_failed run f1 f2 w :
  retcode run ≠ 0 →
  _start_diffing run f1 f2 w =
  (retcode run,
   {| tmp_dir := Some (output run); out_diff := out_diff w;
      logging := logging w ++ [ErrorDifferTerminated (retcode run)] |}).
Proof. intros Hrc. unfold _start_diffing. by rewrite bool_decide_eq_true_2. Qed.

(** The fallback scan only takes a file whose suffix is [.BinExport]; when
    the directory has none, and no file of the expected name, the method
    returns [-2] and the temporary directory stays. *)
Lemma start_diffing_nothing_found run f1 f2 w :
  retcode run = 0 →
  Forall (λ p, name p ≠ expected_name f1 f2 ∧ suffix p ≠ ".BinExport") (output run) →
  ∃ w', _start_diffing run f1 f2 w = (-2, w') ∧
        tmp_dir w' = Some (output run) ∧ out_diff w' = out_diff w.
Proof.
  intros Hrc Hnone. unfold _start_diffing.
  rewrite bool_decide_eq_false_2 by (by intros ?).
  assert (find (λ p, bool_decide (name p = expected_name f1 f2)) (output run) = None) as ->.
  { induction Hnone as [|p l [Hn _] _ IH]; simpl; [done|].
    by rewrite bool_decide_eq_false_2. }
  assert (find (λ p, bool_decide (suffix p = ".BinExport")) (output run) = None) as ->.
  { induction Hnone as [|p l [_ Hs] _ IH]; simpl; [done|].
    by rewrite bool_decide_eq_false_2. }
  eexists. split; [done|]. by case_bool_decide.
Qed.

(** C8, at the failing inputs: the differ exits with code 1, or it exits
    with code 0 and leaves no artifact.  In both runs the method returns
    without removing the temporary directory; after a run that leaves the
    expected artifact the directory is removed. *)
Theorem tmp_dir_survives_failures :
  (∃ w', _start_diffing SampleStore.run_failed SampleStore.primary_file
           SampleStore.secondary_file SampleStore.world = (1, w') ∧
         tmp_dir w' = Some []) ∧
  (∃ w', _start_diffing SampleStore.run_other_log SampleStore.primary_file
           SampleStore.secondary_file SampleStore.world = (-2, w') ∧
         tmp_dir w' = Some [{| stem := "differ"; suffix := ".log" |}]) ∧
  (∃ w', _start_diffing SampleStore.run_expected SampleStore.primary_file
           SampleStore.secondary_file SampleStore.world = (0, w') ∧
         tmp_dir w' = None).
Proof. repeat split; eexists; (split; [vm_compute; reflexivity|reflexivity]). Qed.

(** C9, at the failing input: the differ exits with code 0 and leaves one
    file that carries the extension of the diff store, [result.BinDiff],
    under another name than the expected one.  The scan looks for the suffix
    [.BinExport]: the file is not moved, the method logs that the diff file
    was not found and returns [-2], so no session is built.  A file with the
    suffix [.BinExport] is what the scan moves. *)
Theorem fallback_scan_misses_diff_store_file :
  (∃ w', _start_diffing SampleStore.run_other_name SampleStore.primary_file
           SampleStore.secondary_file SampleStore.world = (-2, w') ∧
         out_diff w' = None ∧
         logging w' = [ErrorDiffFileNotFound] ∧
         fst (from_binexport_files (λ w, w) SampleStore.run_other_name
                SampleStore.primary_file SampleStore.secondary_file
                SampleStore.world) = None) ∧
  (∃ w', _start_diffing SampleStore.run_binexport SampleStore.primary_file
           SampleStore.secondary_file SampleStore.world = (0, w') ∧
         out_diff w' = Some {| stem := "a"; suffix := ".BinExport" |}).
Proof.
  split; eexists; (split; [vm_compute; reflexivity|]); [|reflexivity].
  repeat split; vm_compute; reflexivity.
Qed.

End FacadeProperties.

(** ** The record extractor *)

Lemma setitem_Forall {V} (P : Z * V → Prop) (d : Dict.t V) k v :
  Forall P d → P (k, v) → Forall P (Dict.setitem d k v).
Proof.
  intros Hd Hv. induction Hd as [|[k' v'] d Hp Hd IH]; simpl.
  - by constructor.
  - case_bool_decide; by constructor.
Qed.

Lemma getitem_Forall {V} (P : Z * V → Prop) (d : Dict.t V) k v :
  Forall P d → Dict.getitem d k = Some v → P (k, v).
Proof.
  intros Hd. induction Hd as [|[k' v'] d Hp Hd IH]; simpl; [done|].
  case_bool_decide; [|done]. intros [= <-]. by subst.
Qed.

Lemma initial_funs_groups_nonempty rows : groups_nonempty (initial_funs rows).
Proof.
  unfold initial_funs.
  assert (∀ funs, groups_nonempty funs →
            groups_nonempty
              (foldl (λ funs x, Dict.setitem funs (fr_id x)
                 {| fd_addr1 := fr_address1 x; fd_addr2 := fr_address2 x;
                    fd_similarity := fr_similarity x; fd_confidence := fr_confidence x;
                    fd_algo := fr_algorithm x; fd_bbs := [] |}) funs rows)) as H.
  { induction rows as [|x rows IH]; intros funs Hf; simpl; [done|].
    apply IH. apply setitem_Forall; [done|]. simpl. constructor. }
  apply H. constructor.
Qed.

Lemma add_instruction_row_groups_nonempty funs r funs' :
  groups_nonempty funs →
  add_instruction_row funs r = Some funs' →
  groups_nonempty funs'.
Proof.
  intros Hf. unfold add_instruction_row.
  destruct (Dict.getitem funs (ir_functionid r)) as [d|] eqn:Ed; simpl; [|done].
  intros [= <-]. apply setitem_Forall; [done|]. simpl.
  pose proof (getitem_Forall _ _ _ _ Hf Ed) as Hd. simpl in Hd.
  destruct (Dict.getitem (fd_bbs d) (ir_bb_id r)) as [[[[a1 a2] algo] q]|];
    apply setitem_Forall; try done; simpl.
  by destruct q.
Qed.

(** The groups that the extractor builds are never empty: a group is created
    with the pair of the row that introduces it. *)
Lemma extract_groups_nonempty db funs :
  extract db = Some funs → groups_nonempty funs.
Proof.
  unfold extract.
  generalize (initial_funs_groups_nonempty (function db)).
  generalize (initial_funs (function db)).
  induction (basicblock_instruction db) as [|r rows IH]; intros funs0 H0; simpl.
  - by intros [= <-].
  - destruct (add_instruction_row funs0 r) as [funs1|] eqn:E; simpl; [|done].
    apply IH. by eapply add_instruction_row_groups_nonempty.
Qed.

(** * Further properties of the code *)

(** ** The outer loop of [_load_basic_block_info] *)

(** X1.  The outer [while inst_data:] loop ends on every input: with [n]
    blocks in [f1] and a queue of [k] pairs it makes fewer than [2 n + k + 2]
    passes, so the method returns or raises, and any larger bound on the
    passes gives the same result. *)
Theorem basic_block_loop_ends f1 f2 algo a1 a2 q st :
  ∃ r, block_loop (block_fuel f1 q) f1 f2 algo a1 a2 q st = Some r ∧
       _load_basic_block_info f1 f2 a1 a2 algo q st = r ∧
       ∀ fuel, (2 * length (f_blocks f1) + length q + 2 ≤ fuel)%nat →
               block_loop fuel f1 f2 algo a1 a2 q st = Some r.
Proof.
  destruct (block_loop_terminates f1 f2 algo a1 a2 q st) as [r Hr].
  exists r. split; [done|]. split; [by eapply load_basic_block_info_loop|].
  intros fuel Hfuel. by eapply block_loop_fuel_mono.
Qed.

(** X2.  Whatever its outcome, [_load_basic_block_info] leaves alone the two
    programs, the fields of the session read from the metadata, and the
    annotations of programs and functions: it writes on basic blocks and
    instructions, on [single_match] and on the output only. *)
Theorem basic_block_info_writes_blocks_only f1 f2 a1 a2 algo q st :
  block_frame st (snd (_load_basic_block_info f1 f2 a1 a2 algo q st)).
Proof. apply load_basic_block_info_block_frame. Qed.

(** ** [single_match] *)

Lemma single_match_grows_by_refl pairs st : single_match_grows_by pairs st st.
Proof. exists []. split; [by rewrite app_nil_r|]. by intros ? ?%elem_of_nil. Qed.

Lemma single_match_grows_by_trans pairs st1 st2 st3 :
  single_match_grows_by pairs st1 st2 →
  single_match_grows_by pairs st2 st3 →
  single_match_grows_by pairs st1 st3.
Proof.
  intros (l1 & H1 & Hl1) (l2 & H2 & Hl2). exists (l1 ++ l2). split.
  - by rewrite H2, H1, app_assoc.
  - intros p [?|?]%elem_of_app; auto.
Qed.

Lemma single_match_grows_by_mono pairs pairs' st st' :
  pairs ⊆ pairs' → single_match_grows_by pairs st st' → single_match_grows_by pairs' st st'.
Proof. intros Hsub (l & H & Hl). exists l. split; [done|]. by etransitivity. Qed.

Lemma recover_single_match f1 f2 bb1 bb2 a1 a2 i1 i2 q st :
  single_match_grows_by [(i1, i2)] st (snd (recover f1 f2 bb1 bb2 a1 a2 i1 i2 q st)).
Proof.
  assert (single_match_grows_by [(i1, i2)] st (snd (single_match_append (i1, i2) st)))
    as Happ by (by exists [(i1, i2)]).
  unfold recover.
  destruct (negb (bb_contains bb1 i1) && negb (bb_contains bb2 i2)); [|exact Happ].
  unfold_monad.
  destruct (owning_block_addr f1 i1); [|apply single_match_grows_by_refl].
  destruct (owning_block_addr f2 i2); [|apply single_match_grows_by_refl].
  cbv beta iota.
  destruct (Dict.getitem (f_blocks f1) _); [|apply single_match_grows_by_refl].
  cbv beta iota. case_bool_decide; cbv beta iota; [exact Happ|].
  destruct (Dict.getitem (f_blocks f2) _); [|apply single_match_grows_by_refl].
  cbv beta iota. case_bool_decide; cbv beta iota;
    [exact Happ|apply single_match_grows_by_refl].
Qed.

(** The inner loop appends pairs of its queue only, and what it hands back
    at a [break] are pairs of its queue. *)
Lemma drain_single_match f1 f2 bb1 bb2 a1 a2 q : ∀ st,
  single_match_grows_by q st (snd (drain f1 f2 bb1 bb2 a1 a2 q st)) ∧
  ∀ a1' a2' q', fst (drain f1 f2 bb1 bb2 a1 a2 q st) = Ret (Break a1' a2' q') → q' ⊆ q.
Proof.
  induction q as [|[i1 i2] q IH]; intros st; simpl.
  - split; [apply single_match_grows_by_refl|done].
  - destruct (bb_contains bb1 i1 && bb_contains bb2 i2).
    + unfold bind, _load_instruction_info, modify_graph.
      match goal with |- context [drain _ _ _ _ _ _ _ ?s] => destruct (IH s) as [Hg Hq] end.
      split.
      * eapply single_match_grows_by_mono; [|exact Hg]. set_solver.
      * intros a1' a2' q' Hb. specialize (Hq _ _ _ Hb). set_solver.
    + split.
      * eapply single_match_grows_by_mono; [|apply recover_single_match]. set_solver.
      * intros a1' a2' q' Hb.
        destruct (recover f1 f2 bb1 bb2 a1 a2 i1 i2 q st) as [o st'] eqn:E.
        apply recover_inv in E as [_ [[e ->]|[(? & ? & ->)|(? & ? & -> & _)]]];
          simpl in Hb; simplify_eq; set_solver.
Qed.

Lemma block_pass_single_match f1 f2 algo a1 a2 q st :
  single_match_grows_by q st (snd (block_pass f1 f2 algo a1 a2 q st)) ∧
  ∀ a1' a2' q', fst (block_pass f1 f2 algo a1 a2 q st) = Ret (Break a1' a2' q') → q' ⊆ q.
Proof.
  unfold block_pass, bind.
  destruct (match_blocks f1 f2 a1 a2 algo st) as [o st1] eqn:E.
  apply match_blocks_inv in E as [(e & -> & ->)|(bb1 & bb2 & out & -> & _ & _ & ->)].
  - split; [apply single_match_grows_by_refl|done].
  - match goal with |- context [drain _ _ ?b1 ?b2 _ _ _ ?s] =>
      destruct (drain_single_match f1 f2 b1 b2 a1 a2 q s) as [Hg Hq] end.
    split; [|exact Hq].
    destruct Hg as (l & Hl & Hsub). by exists l.
Qed.

Lemma block_loop_single_match f1 f2 algo pairs fuel : ∀ a1 a2 q st r,
  q ⊆ pairs →
  block_loop fuel f1 f2 algo a1 a2 q st = Some r →
  single_match_grows_by pairs st (snd r).
Proof.
  induction fuel as [|fuel IH]; intros a1 a2 q st r Hsub.
  - destruct q; simpl; [|done]. intros [= <-]. apply single_match_grows_by_refl.
  - destruct q as [|p q]; simpl; [intros [= <-]; apply single_match_grows_by_refl|].
    destruct (block_pass_single_match f1 f2 algo a1 a2 (p :: q) st) as [Hg Hq].
    destruct (block_pass f1 f2 algo a1 a2 (p :: q) st) as [[[|a1' a2' q']|e] st'];
      simpl in *.
    + intros [= <-]. by eapply single_match_grows_by_mono.
    + intros Hrun. eapply single_match_grows_by_trans.
      * by eapply single_match_grows_by_mono.
      * eapply IH; [|exact Hrun]. specialize (Hq _ _ _ eq_refl). set_solver.
    + intros [= <-]. by eapply single_match_grows_by_mono.
Qed.

(** X3.  Whatever its outcome, [_load_basic_block_info] only appends to
    [single_match], and every pair it appends is a pair of the group: earlier
    entries are kept in place and no pair is invented. *)
Theorem single_match_only_grows_by_group_pairs f1 f2 a1 a2 algo q st :
  ∃ added,
    single_match (snd (_load_basic_block_info f1 f2 a1 a2 algo q st))
      = single_match st ++ added ∧
    ∀ p, p ∈ added → p ∈ q.
Proof.
  destruct (block_loop_terminates f1 f2 algo a1 a2 q st) as [r Hr].
  rewrite (load_basic_block_info_loop _ _ _ _ _ _ _ _ _ Hr).
  by apply (block_loop_single_match f1 f2 algo q (block_fuel f1 q) a1 a2 q st r).
Qed.

(** X4.  A group that is not empty and declares a block address that one of
    the functions does not have makes the method raise [KeyError] at once:
    nothing is matched, nothing is printed, nothing reaches [single_match]. *)
Theorem missing_declared_block_raises f1 f2 a1 a2 algo q st :
  q ≠ [] →
  Dict.getitem (f_blocks f1) a1 = None ∨ Dict.getitem (f_blocks f2) a2 = None →
  _load_basic_block_info f1 f2 a1 a2 algo q st = (Raise KeyError, st).
Proof.
  intros Hq Hmiss. apply (load_basic_block_info_loop _ _ _ _ _ _ _ 1%nat).
  destruct q as [|p q]; [done|]. simpl. unfold block_pass, bind, match_blocks.
  unfold_monad.
  destruct (Dict.getitem (f_blocks f1) a1) as [bb1|]; [|done].
  destruct Hmiss as [Hm|Hm]; [done|]. by rewrite Hm.
Qed.

Lemma missing_declared_block_raises_witness :
  _load_basic_block_info Sample.f1 Sample.f2 0x1000 0x7000 2 [(0x1000, 0x7000)] Sample.fresh
  = (Raise KeyError, Sample.fresh).
Proof.
  apply (missing_declared_block_raises Sample.f1 Sample.f2 0x1000 0x7000 2
           [(0x1000, 0x7000)] Sample.fresh).
  - discriminate.
  - right. reflexivity.
Defined.

(** ** No pair is dropped *)

#[global] Instance accounts_kept_preorder : PreOrder accounts_kept.
Proof.
  split.
  - by intros st.
  - intros st1 st2 st3 [Hs12 Hi12] [Hs23 Hi23]. split; eauto.
Qed.

Lemma accounted_for_kept f1 f2 st st' p :
  accounts_kept st st' → accounted_for f1 f2 st p → accounted_for f1 f2 st' p.
Proof.
  intros [Hs Hi] [Hp|[[a1 H1] [a2 H2]]]; [left; auto|].
  right. split; eexists; eauto.
Qed.

Lemma append_accounts_kept p : maintains accounts_kept (single_match_append p).
Proof. intros st. split; [|done]. intros p' Hp'. simpl. set_solver. Qed.

Lemma print_accounts_kept l : maintains accounts_kept (print l).
Proof. by intros st. Qed.

Lemma load_instruction_accounts_kept i1 i2 :
  maintains accounts_kept (_load_instruction_info i1 i2).
Proof.
  intros st. split; [done|]. intros r Hr. simpl.
  rewrite !lookup_insert. by repeat case_decide.
Qed.

Lemma match_blocks_accounts_kept f1 f2 a1 a2 algo :
  maintains accounts_kept (match_blocks f1 f2 a1 a2 algo).
Proof.
  intros st. destruct (match_blocks f1 f2 a1 a2 algo st) as [o st'] eqn:E.
  apply match_blocks_inv in E as [(e & -> & ->)|(bb1 & bb2 & out & -> & _ & _ & ->)];
    simpl; by split.
Qed.

#[global] Hint Resolve append_accounts_kept print_accounts_kept
  load_instruction_accounts_kept match_blocks_accounts_kept : maintains.

Lemma recover_accounts_kept f1 f2 bb1 bb2 a1 a2 i1 i2 q :
  maintains accounts_kept (recover f1 f2 bb1 bb2 a1 a2 i1 i2 q).
Proof. unfold recover. solve_maintains. Qed.

Lemma drain_accounts_kept f1 f2 bb1 bb2 a1 a2 q :
  maintains accounts_kept (drain f1 f2 bb1 bb2 a1 a2 q).
Proof.
  induction q as [|[i1 i2] q IH]; simpl.
  - solve_maintains.
  - pose proof recover_accounts_kept. solve_maintains.
Qed.

(** A recovery that breaks has put the pair in [single_match] or back at
    the front of the queue. *)
Lemma recover_break f1 f2 bb1 bb2 a1 a2 i1 i2 q st a1' a2' q' st' :
  recover f1 f2 bb1 bb2 a1 a2 i1 i2 q st = (Ret (Break a1' a2' q'), st') →
  (q' = q ∧ (i1, i2) ∈ single_match st') ∨ q' = (i1, i2) :: q.
Proof.
  assert ((i1, i2) ∈ single_match (snd (single_match_append (i1, i2) st))) as Happ.
  { simpl. set_solver. }
  unfold recover.
  destruct (negb (bb_contains bb1 i1) && negb (bb_contains bb2 i2)).
  - unfold_monad.
    destruct (owning_block_addr f1 i1); [|done].
    destruct (owning_block_addr f2 i2); [|done].
    cbv beta iota.
    destruct (Dict.getitem (f_blocks f1) _); [|done].
    cbv beta iota. case_bool_decide; cbv beta iota.
    { intros [= <- <- <- <-]. by left. }
    destruct (Dict.getitem (f_blocks f2) _); [|done].
    cbv beta iota. case_bool_decide; cbv beta iota.
    + intros [= <- <- <- <-]. by left.
    + intros [= <- <- <- <-]. by right.
  - unfold_monad. intros [= <- <- <- <-]. by left.
Qed.

Lemma drain_accounts f1 f2 bb1 bb2 a1 a2 q : ∀ st o st',
  drain f1 f2 bb1 bb2 a1 a2 q st = (o, st') →
  match o with
  | Ret Exhausted => ∀ p, p ∈ q → accounted_for f1 f2 st' p
  | Ret (Break _ _ q') => ∀ p, p ∈ q → accounted_for f1 f2 st' p ∨ p ∈ q'
  | Raise _ => True
  end.
Proof.
  induction q as [|[i1 i2] q IH]; intros st o st'; simpl.
  - unfold ret. intros [= <- <-]. by intros p ?%elem_of_nil.
  - destruct (bb_contains bb1 i1 && bb_contains bb2 i2).
    + unfold bind, _load_instruction_info, modify_graph.
      match goal with |- context [drain _ _ _ _ _ _ _ ?s] => set (st1 := s) end.
      intros Hd.
      assert (accounted_for f1 f2 st' (i1, i2)) as Hhead.
      { apply (accounted_for_kept f1 f2 st1).
        - pose proof (drain_accounts_kept f1 f2 bb1 bb2 a1 a2 q st1) as Hk.
          by rewrite Hd in Hk.
        - right. subst st1. simpl. split; eexists.
          + rewrite lookup_insert_ne by done. rewrite lookup_insert_eq. by eexists.
          + rewrite lookup_insert_eq. by eexists. }
      specialize (IH _ _ _ Hd).
      destruct o as [[|a1' a2' q']|e]; [| |done].
      * intros p [-> | Hp]%elem_of_cons; auto.
      * intros p [-> | Hp]%elem_of_cons; auto.
    + intros Hr. pose proof Hr as Hinv. apply recover_inv in Hinv as [_ Ho].
      destruct o as [[|a1' a2' q']|e]; [naive_solver| |done].
      apply recover_break in Hr as [[-> Hs] | ->].
      * intros p [-> | Hp]%elem_of_cons; [left; by left|by right].
      * intros p Hp. by right.
Qed.

Lemma block_pass_accounts f1 f2 algo a1 a2 q st o st' :
  block_pass f1 f2 algo a1 a2 q st = (o, st') →
  match o with
  | Ret Exhausted => ∀ p, p ∈ q → accounted_for f1 f2 st' p
  | Ret (Break _ _ q') => ∀ p, p ∈ q → accounted_for f1 f2 st' p ∨ p ∈ q'
  | Raise _ => True
  end.
Proof.
  unfold block_pass, bind.
  destruct (match_blocks f1 f2 a1 a2 algo st) as [[bbs|e] st1].
  - apply drain_accounts.
  - by intros [= <- <-].
Qed.

Lemma block_pass_accounts_kept f1 f2 algo a1 a2 q :
  maintains accounts_kept (block_pass f1 f2 algo a1 a2 q).
Proof.
  pose proof drain_accounts_kept. unfold block_pass. solve_maintains.
Qed.

Lemma block_loop_accounts f1 f2 algo fuel : ∀ a1 a2 q st st',
  block_loop fuel f1 f2 algo a1 a2 q st = Some (Ret tt, st') →
  ∀ p, p ∈ q → accounted_for f1 f2 st' p.
Proof.
  induction fuel as [|fuel IH]; intros a1 a2 q st st'.
  - destruct q; simpl; [|done]. by intros _ p ?%elem_of_nil.
  - destruct q as [|p0 q]; simpl; [by intros _ p ?%elem_of_nil|].
    destruct (block_pass f1 f2 algo a1 a2 (p0 :: q) st) as [o st1] eqn:E.
    pose proof (block_pass_accounts _ _ _ _ _ _ _ _ _ E) as Hacc.
    destruct o as [[|a1' a2' q']|e]; simpl.
    + by intros [= <-].
    + intros Hrun p Hp. destruct (Hacc p Hp) as [Ha|Hq'].
      * eapply accounted_for_kept; [|exact Ha].
        pose proof (block_loop_maintains accounts_kept f1 f2 algo
                      (block_pass_accounts_kept f1 f2 algo) _ _ _ _ _ _ Hrun) as Hk.
        exact Hk.
      * by eapply IH.
    + done.
Qed.

(** X5.  When [_load_basic_block_info] returns, no pair of the group was
    dropped: every pair is in [single_match], or each of its two instructions
    carries a match inside a block of its function. *)
Theorem no_pair_is_dropped f1 f2 a1 a2 algo q st st' p :
  _load_basic_block_info f1 f2 a1 a2 algo q st = (Ret tt, st') →
  p ∈ q →
  p ∈ single_match st' ∨
  ((∃ b1, is_Some (inst_match (graph st') !! (primary_block f1 b1, p.1))) ∧
   (∃ b2, is_Some (inst_match (graph st') !! (secondary_block f2 b2, p.2)))).
Proof.
  intros Hrun Hp.
  destruct (block_loop_terminates f1 f2 algo a1 a2 q st) as [r Hr].
  rewrite (load_basic_block_info_loop _ _ _ _ _ _ _ _ _ Hr) in Hrun. subst r.
  by apply (block_loop_accounts _ _ _ _ _ _ _ _ _ Hr).
Qed.

Lemma no_pair_is_dropped_witness :
  (0x1004, 0x2008) ∈
    single_match (snd (_load_basic_block_info Sample.f1 Sample.f2 0x1000 0x2000 2
                         [(0x1000, 0x2000); (0x1004, 0x2008)] Sample.fresh)) ∨
  ((∃ b1, is_Some (inst_match
       (graph (snd (_load_basic_block_info Sample.f1 Sample.f2 0x1000 0x2000 2
                      [(0x1000, 0x2000); (0x1004, 0x2008)] Sample.fresh)))
       !! (primary_block Sample.f1 b1, (0x1004, 0x2008).1))) ∧
   (∃ b2, is_Some (inst_match
       (graph (snd (_load_basic_block_info Sample.f1 Sample.f2 0x1000 0x2000 2
                      [(0x1000, 0x2000); (0x1004, 0x2008)] Sample.fresh)))
       !! (secondary_block Sample.f2 b2, (0x1004, 0x2008).2)))).
Proof.
  apply (no_pair_is_dropped Sample.f1 Sample.f2 0x1000 0x2000 2
           [(0x1000, 0x2000); (0x1004, 0x2008)] Sample.fresh
           (snd (_load_basic_block_info Sample.f1 Sample.f2 0x1000 0x2000 2
                   [(0x1000, 0x2000); (0x1004, 0x2008)] Sample.fresh))
           (0x1004, 0x2008)).
  - vm_compute. reflexivity.
  - apply (bool_decide_unpack _). vm_compute. exact I.
Defined.

(** ** The branches of the recovery *)





(** ** Recovery, from the call to the state it leaves *)











(** The conditions of the last three parts hold on this input, and the call
    leaves the pair matched inside the newly matched blocks. *)
Example recovered_pair_sample :
  0x100c ∉ [(0x1008, 0x2008)].*1 ∧
  0x200c ∉ [(0x1008, 0x2008)].*2 ∧
  pairs_in_blocks Sample.p1_next Sample.p2_next [(0x1008, 0x2008)] ∧
  ∃ st',
    _load_basic_block_info Sample.f1 Sample.f2 0x1000 0x2000 2
      [(0x1000, 0x2000); (0x100c, 0x200c); (0x1008, 0x2008)] Sample.fresh = (Ret tt, st') ∧
    bb_match (graph st') !! primary_block Sample.f1 0x1008
      = Some (secondary_block Sample.f2 0x2008) ∧
    inst_match (graph st') !! (primary_block Sample.f1 0x1008, 0x100c)
      = Some (secondary_block Sample.f2 0x2008, 0x200c) ∧
    inst_match (graph st') !! (secondary_block Sample.f2 0x2008, 0x200c)
      = Some (primary_block Sample.f1 0x1008, 0x100c) ∧
    single_match st' = [].
Proof.
  split; [apply (bool_decide_unpack _); vm_compute; exact I|].
  split; [apply (bool_decide_unpack _); vm_compute; exact I|].
  split; [apply (bool_decide_unpack _); vm_compute; exact I|].
  eexists. split; [vm_compute; reflexivity|]. vm_compute. done.
Qed.

(** ** The search for the owning block *)

Lemma getitem_None_not_key {V} (d : Dict.t V) k :
  Dict.getitem d k = None ↔ k ∉ d.*1.
Proof.
  induction d as [|[k' v] d IH]; simpl.
  - split; [intros _ ?%elem_of_nil; done|done].
  - case_bool_decide as Hk.
    + split; [done|]. intros Hn. exfalso. apply Hn. subst. left.
    + rewrite IH. rewrite not_elem_of_cons. naive_solver.
Qed.

Lemma getitem_elem_of_NoDup {V} (d : Dict.t V) k v :
  NoDup d.*1 → (k, v) ∈ d → Dict.getitem d k = Some v.
Proof.
  induction d as [|[k' v'] d IH]; intros Hnd Hin; [by apply elem_of_nil in Hin|].
  rewrite fmap_cons in Hnd. apply NoDup_cons in Hnd as [Hk' Hnd]. simpl in *.
  apply elem_of_cons in Hin as [[= -> ->]|Hin].
  - by rewrite bool_decide_eq_true_2.
  - rewrite bool_decide_eq_false_2; [by apply IH|].
    intros ->. apply Hk'. by apply (list_elem_of_fmap_2 fst) in Hin.
Qed.

Lemma head_filter_Some {A} (P : A → Prop) `{!∀ x, Decision (P x)} (l : list A) x :
  head (filter P l) = Some x → x ∈ l ∧ P x.
Proof.
  induction l as [|y l IH]; [done|]. rewrite filter_cons.
  destruct (decide (P y)) as [Hy|Hy]; simpl.
  - intros [= ->]. split; [left|done].
  - intros Hh. destruct (IH Hh). split; [by right|done].
Qed.

Lemma head_filter_None {A} (P : A → Prop) `{!∀ x, Decision (P x)} (l : list A) :
  head (filter P l) = None ↔ ∀ x, x ∈ l → ¬ P x.
Proof.
  induction l as [|y l IH]; [split; [by intros _ x ?%elem_of_nil|done]|].
  rewrite filter_cons. destruct (decide (P y)) as [Hy|Hy]; simpl.
  - split; [done|]. intros Hh. exfalso. apply (Hh y); [left|done].
  - rewrite IH. split.
    + intros Hh x [-> | Hx]%elem_of_cons; auto.
    + intros Hh x Hx. apply Hh. by right.
Qed.

(** X8.  In a function whose blocks are stored under their own address,
    an address that is not itself the key of a block is resolved to the
    address of a block that contains it: the lookup [f[bb_addr]] that follows
    the search finds that block and cannot raise [KeyError]. *)
Theorem owning_block_addr_finds_owner f i a :
  keyed_by_addr f →
  NoDup (f_blocks f).*1 →
  Dict.getitem (f_blocks f) i = None →
  owning_block_addr f i = Some a →
  ∃ b, Dict.getitem (f_blocks f) a = Some b ∧ bb_addr b = a ∧ i ∈ bb_insts b.
Proof.
  intros Hkeyed Hnd Hnokey. unfold owning_block_addr.
  assert (Dict.contains (f_blocks f) i = false) as ->.
  { unfold Dict.contains. rewrite Hnokey. apply bool_decide_eq_false_2. by intros [? ?]. }
  destruct (filter _ (Dict.values (f_blocks f))) as [|x l] eqn:Ef; [done|].
  simpl. intros [= <-].
  assert (head (filter (λ x, bb_contains x i = true) (Dict.values (f_blocks f))) = Some x)
    as Hhead by (by rewrite Ef).
  apply head_filter_Some in Hhead as [Hx Hin].
  unfold Dict.values in Hx. apply list_elem_of_fmap in Hx as ([k x'] & -> & Hkx).
  simpl in *. exists x'. split; [|split; [done|]].
  - apply getitem_elem_of_NoDup; [done|].
    unfold keyed_by_addr in Hkeyed. rewrite Forall_forall in Hkeyed.
    specialize (Hkeyed _ Hkx). simpl in Hkeyed. by subst.
  - unfold bb_contains in Hin. by apply bool_decide_eq_true in Hin.
Qed.

Lemma owning_block_addr_finds_owner_witness :
  ∃ b, Dict.getitem (f_blocks Sample.f1) 0x1008 = Some b ∧ bb_addr b = 0x1008 ∧
       0x100c ∈ bb_insts b.
Proof.
  apply (owning_block_addr_finds_owner Sample.f1 0x100c 0x1008).
  - apply (bool_decide_unpack _). vm_compute. exact I.
  - apply (bool_decide_unpack _). vm_compute. exact I.
  - reflexivity.
  - reflexivity.
Defined.

(** X9.  The search fails, and the recovery raises [IndexError], exactly
    when the address is neither the key of a block of the function nor an
    instruction of one of its blocks. *)
Theorem owning_block_addr_fails_iff_orphan f i :
  owning_block_addr f i = None ↔
  Dict.getitem (f_blocks f) i = None ∧
  ∀ k b, (k, b) ∈ f_blocks f → i ∉ bb_insts b.
Proof.
  unfold owning_block_addr, Dict.contains.
  destruct (Dict.getitem (f_blocks f) i) as [b0|] eqn:Ei.
  - rewrite bool_decide_eq_true_2 by (by eexists). naive_solver.
  - rewrite bool_decide_eq_false_2 by (by intros [? ?]).
    assert (∀ l : list BasicBlockBinDiff, head (map bb_addr l) = None ↔ head l = None)
      as Hmap by (by intros []).
    rewrite Hmap, head_filter_None. split.
    + intros H. split; [done|]. intros k b Hkb Hin.
      apply (H b).
      * unfold Dict.values. by apply (list_elem_of_fmap_2 snd) in Hkb.
      * unfold bb_contains. by apply bool_decide_eq_true.
    + intros [_ H] x Hx Hc. unfold Dict.values in Hx.
      apply list_elem_of_fmap in Hx as ([k b] & -> & Hkb).
      apply (H k b Hkb). unfold bb_contains in Hc. by apply bool_decide_eq_true in Hc.
Qed.

(** ** The record extractor, continued *)

Lemma getitem_setitem {V} (d : Dict.t V) k v k' :
  Dict.getitem (Dict.setitem d k v) k' =
  if bool_decide (k = k') then Some v else Dict.getitem d k'.
Proof.
  induction d as [|[k0 v0] d IH]; simpl.
  - done.
  - destruct (decide (k0 = k)) as [->|H0].
    + rewrite (bool_decide_eq_true_2 (k = k)) by done. simpl.
      by destruct (bool_decide (k = k')).
    + rewrite (bool_decide_eq_false_2 (k0 = k)) by done. simpl. rewrite IH.
      destruct (decide (k0 = k')) as [->|H1].
      * rewrite (bool_decide_eq_true_2 (k' = k')) by done.
        by rewrite bool_decide_eq_false_2 by done.
      * by rewrite (bool_decide_eq_false_2 (k0 = k')) by done.
Qed.

Lemma rows_of_snoc fid bid rows r :
  rows_of fid bid (rows ++ [r]) =
  rows_of fid bid rows ++
  (if bool_decide (ir_functionid r = fid ∧ ir_bb_id r = bid) then [r] else []).
Proof.
  unfold rows_of. rewrite filter_app. f_equal.
  rewrite filter_cons, filter_nil. case_bool_decide; by case_decide.
Qed.

Lemma initial_funs_no_groups rows fid d :
  Dict.getitem (initial_funs rows) fid = Some d → fd_bbs d = [].
Proof.
  assert (Forall (λ kd : Z * f_data, fd_bbs kd.2 = []) (initial_funs rows)) as H.
  { unfold initial_funs.
    assert (∀ funs, Forall (λ kd : Z * f_data, fd_bbs kd.2 = []) funs →
              Forall (λ kd : Z * f_data, fd_bbs kd.2 = [])
                (foldl (λ funs x, Dict.setitem funs (fr_id x)
                   {| fd_addr1 := fr_address1 x; fd_addr2 := fr_address2 x;
                      fd_similarity := fr_similarity x; fd_confidence := fr_confidence x;
                      fd_algo := fr_algorithm x; fd_bbs := [] |}) funs rows)) as Hf.
    { induction rows as [|x rows IH]; intros funs Hfuns; simpl; [done|].
      apply IH. by apply setitem_Forall. }
    apply Hf. constructor. }
  intros Hd. by apply (getitem_Forall _ _ _ _ H Hd).
Qed.

Lemma initial_funs_grouped rows : grouped [] (initial_funs rows).
Proof.
  intros fid d bid Hd. by rewrite (initial_funs_no_groups _ _ _ Hd).
Qed.

Lemma add_instruction_row_grouped rows funs r funs' :
  grouped rows funs →
  add_instruction_row funs r = Some funs' →
  grouped (rows ++ [r]) funs'.
Proof.
  intros Hg. unfold add_instruction_row.
  destruct (Dict.getitem funs (ir_functionid r)) as [d|] eqn:Ed; simpl; [|done].
  intros [= <-] fid d' bid. rewrite getitem_setitem, rows_of_snoc.
  case_bool_decide as Hf.
  - intros [= <-]. simpl. subst fid. specialize (Hg _ _ bid Ed).
    destruct (Dict.getitem (fd_bbs d) (ir_bb_id r)) as [[[[a1 a2] algo] q]|] eqn:Eb;
      rewrite getitem_setitem; case_bool_decide as Hb.
    + subst bid. rewrite Eb in Hg. destruct Hg as (-> & r0 & Hr0 & -> & -> & ->).
      rewrite bool_decide_eq_true_2 by done. rewrite fmap_app. split; [done|].
      exists r0. split; [|done].
      destruct (rows_of (ir_functionid r) (ir_bb_id r) rows); [done|]. by simplify_eq.
    + rewrite bool_decide_eq_false_2 by naive_solver. by rewrite app_nil_r.
    + subst bid. rewrite Eb in Hg. rewrite Hg.
      rewrite bool_decide_eq_true_2 by done. simpl. split; [done|]. by exists r.
    + rewrite bool_decide_eq_false_2 by naive_solver. by rewrite app_nil_r.
  - intros Hd'. rewrite bool_decide_eq_false_2 by naive_solver.
    rewrite app_nil_r. by apply Hg.
Qed.

Lemma add_instruction_rows_grouped rows : ∀ seen funs funs',
  grouped seen funs →
  add_instruction_rows funs rows = Some funs' →
  grouped (seen ++ rows) funs'.
Proof.
  induction rows as [|r rows IH]; intros seen funs funs' Hg; simpl.
  - intros [= <-]. by rewrite app_nil_r.
  - destruct (add_instruction_row funs r) as [funs1|] eqn:E; simpl; [|done].
    intros Hrest.
    replace (seen ++ r :: rows) with ((seen ++ [r]) ++ rows)
      by (by rewrite <- app_assoc).
    eapply IH; [|exact Hrest]. by eapply add_instruction_row_grouped.
Qed.

(** X10.  Every basic-block group that the extractor builds holds, in the
    order of the cursor, exactly the instruction pairs of the joined rows with
    its function id and block id, carries the block addresses and the
    algorithm of the first of these rows, and so is never empty. *)
Theorem extracted_group_holds_its_rows_in_order db funs fid d bid a1 a2 algo q :
  extract db = Some funs →
  Dict.getitem funs fid = Some d →
  Dict.getitem (fd_bbs d) bid = Some (a1, a2, algo, q) →
  q = row_pair <$> rows_of fid bid (basicblock_instruction db) ∧
  q ≠ [] ∧
  ∃ r0, head (rows_of fid bid (basicblock_instruction db)) = Some r0 ∧
        a1 = ir_bb_addr1 r0 ∧ a2 = ir_bb_addr2 r0 ∧ algo = ir_bb_algo r0.
Proof.
  intros Hex Hd Hb.
  pose proof (add_instruction_rows_grouped _ [] _ _
                (initial_funs_grouped (function db)) Hex) as Hg.
  specialize (Hg fid d bid Hd). rewrite Hb in Hg. simpl in Hg.
  destruct Hg as (-> & r0 & Hr0 & -> & -> & ->).
  split; [done|]. split; [|by exists r0].
  by destruct (rows_of fid bid (basicblock_instruction db)).
Qed.

Lemma extracted_group_holds_its_rows_in_order_witness :
  [(0x1000, 0x2000); (0x1004, 0x2004)]
    = row_pair <$> rows_of 1 1 (basicblock_instruction SampleStore.db) ∧
  [(0x1000, 0x2000); (0x1004, 0x2004)] ≠ [] ∧
  ∃ r0, head (rows_of 1 1 (basicblock_instruction SampleStore.db)) = Some r0 ∧
        0x1000 = ir_bb_addr1 r0 ∧ 0x2000 = ir_bb_addr2 r0 ∧ 2 = ir_bb_algo r0.
Proof.
  apply (extracted_group_holds_its_rows_in_order SampleStore.db
           (default [] (extract SampleStore.db)) 1
           {| fd_addr1 := 0x1000; fd_addr2 := 0x2000; fd_similarity := 19 # 20;
              fd_confidence := 9 # 10; fd_algo := 1;
              fd_bbs := [(1, (0x1000, 0x2000, 2, [(0x1000, 0x2000); (0x1004, 0x2004)]))] |}
           1 0x1000 0x2000 2 [(0x1000, 0x2000); (0x1004, 0x2004)]).
  - reflexivity.
  - reflexivity.
  - reflexivity.
Defined.

Lemma initial_funs_getitem_None rows k :
  Dict.getitem (initial_funs rows) k = None ↔ k ∉ fr_id <$> rows.
Proof.
  unfold initial_funs.
  assert (∀ funs,
    Dict.getitem (foldl (λ funs x, Dict.setitem funs (fr_id x)
       {| fd_addr1 := fr_address1 x; fd_addr2 := fr_address2 x;
          fd_similarity := fr_similarity x; fd_confidence := fr_confidence x;
          fd_algo := fr_algorithm x; fd_bbs := [] |}) funs rows) k = None ↔
    Dict.getitem funs k = None ∧ k ∉ fr_id <$> rows) as H.
  { induction rows as [|x rows IH]; intros funs; simpl.
    - split; [intros ?; split; [done|by intros ?%elem_of_nil]|by intros [? _]].
    - rewrite IH, getitem_setitem, ?fmap_cons, not_elem_of_cons.
      case_bool_decide; naive_solver. }
  rewrite H. naive_solver.
Qed.

Lemma add_instruction_row_keys funs r funs' k :
  add_instruction_row funs r = Some funs' →
  Dict.getitem funs' k = None ↔ Dict.getitem funs k = None.
Proof.
  unfold add_instruction_row.
  destruct (Dict.getitem funs (ir_functionid r)) as [d|] eqn:Ed; simpl; [|done].
  intros [= <-]. rewrite getitem_setitem. case_bool_decide; [|done].
  subst. rewrite Ed. naive_solver.
Qed.

Lemma add_instruction_rows_unknown_function rows : ∀ funs r,
  r ∈ rows →
  Dict.getitem funs (ir_functionid r) = None →
  add_instruction_rows funs rows = None.
Proof.
  induction rows as [|r0 rows IH]; intros funs r Hin Hnone; [by apply elem_of_nil in Hin|].
  simpl. destruct (add_instruction_row funs r0) as [funs1|] eqn:E; simpl; [|done].
  apply elem_of_cons in Hin as [-> | Hin].
  - unfold add_instruction_row in E. by rewrite Hnone in E.
  - apply (IH _ r Hin). by rewrite (add_instruction_row_keys _ _ _ _ E).
Qed.

(** X11.  A joined row whose function id has no function record makes the
    constructor raise [KeyError] while it groups the rows: the metadata is
    loaded and applied to the two programs, and no function record has been
    applied yet. *)
Theorem row_of_unknown_function_aborts_construction strptime p1 p2 g db st0 r :
  load_and_apply_metadata strptime db (fresh_session p1 p2 g) = (Ret tt, st0) →
  r ∈ basicblock_instruction db →
  ir_functionid r ∉ fr_id <$> function db →
  __init__ strptime p1 p2 g db = (Raise KeyError, st0).
Proof.
  intros Hmd Hr Hid. rewrite (init_unfold _ _ _ _ _ _ Hmd).
  unfold extract.
  rewrite (add_instruction_rows_unknown_function _ _ r Hr); [done|].
  by apply initial_funs_getitem_None.
Qed.

Lemma row_of_unknown_function_aborts_construction_witness :
  __init__ SampleStore.strptime Sample.p1 Sample.p2 no_annotations
    {| metadata := metadata SampleStore.db; function := [];
       basicblock_instruction := basicblock_instruction SampleStore.db |}
  = (Raise KeyError,
     snd (load_and_apply_metadata SampleStore.strptime SampleStore.db
            (fresh_session Sample.p1 Sample.p2 no_annotations))).
Proof.
  apply (row_of_unknown_function_aborts_construction SampleStore.strptime
           Sample.p1 Sample.p2 no_annotations
           {| metadata := metadata SampleStore.db; function := [];
              basicblock_instruction := basicblock_instruction SampleStore.db |}
           (snd (load_and_apply_metadata SampleStore.strptime SampleStore.db
                   (fresh_session Sample.p1 Sample.p2 no_annotations)))
           {| ir_functionid := 1; ir_bb_id := 1; ir_bb_addr1 := 0x1000;
              ir_bb_addr2 := 0x2000; ir_bb_algo := 2; ir_i1 := 0x1000; ir_i2 := 0x2000 |}).
  - vm_compute. reflexivity.
  - left.
  - apply (bool_decide_unpack _). vm_compute. exact I.
Defined.

(** X12.  When the metadata table is empty the constructor raises
    [TypeError], and when the table has a row of which one of the two
    timestamps does not parse it raises [ValueError]; in both cases it has not
    written anything on the two programs yet: their annotations are exactly
    those they had. *)
Theorem unreadable_metadata_aborts_before_any_annotation strptime p1 p2 g db :
  metadata_unreadable strptime db →
  fst (__init__ strptime p1 p2 g db)
    = Raise (match head (metadata db) with None => TypeError | Some _ => ValueError end) ∧
  graph (snd (__init__ strptime p1 p2 g db)) = g.
Proof.
  unfold metadata_unreadable, __init__, _load_metadata. unfold_monad.
  destruct (head (metadata db)) as [row|]; cbv beta iota; [|done].
  destruct (strptime (md_created row)) as [c|]; cbv beta iota; [|done].
  destruct (strptime (md_modified row)) as [m|]; cbv beta iota; [|done].
  by intros [?|?].
Qed.

Lemma unreadable_metadata_aborts_before_any_annotation_witness :
  fst (__init__ SampleStore.strptime Sample.p1 Sample.p2 no_annotations
         {| metadata := []; function := function SampleStore.db;
            basicblock_instruction := basicblock_instruction SampleStore.db |})
    = Raise (match head (metadata
                 {| metadata := []; function := function SampleStore.db;
                    basicblock_instruction := basicblock_instruction SampleStore.db |})
             with None => TypeError | Some _ => ValueError end) ∧
  graph (snd (__init__ SampleStore.strptime Sample.p1 Sample.p2 no_annotations
                {| metadata := []; function := function SampleStore.db;
                   basicblock_instruction := basicblock_instruction SampleStore.db |}))
  = no_annotations.
Proof.
  apply (unreadable_metadata_aborts_before_any_annotation SampleStore.strptime
           Sample.p1 Sample.p2 no_annotations
           {| metadata := []; function := function SampleStore.db;
              basicblock_instruction := basicblock_instruction SampleStore.db |}).
  vm_compute. exact I.
Defined.

(** ** Running a group twice *)

Lemma match_blocks_symmetric f1 f2 a1 a2 algo st bb1 bb2 :
  Dict.getitem (f_blocks f1) a1 = Some bb1 →
  Dict.getitem (f_blocks f2) a2 = Some bb2 →
  bb_match (graph st) !! primary_block f1 a1 = Some (secondary_block f2 a2) →
  bb_match (graph st) !! secondary_block f2 a2 = Some (primary_block f1 a1) →
  match_blocks f1 f2 a1 a2 algo st =
  (Ret (bb1, bb2),
   blocks_matched (primary_block f1 a1) (secondary_block f2 a2) algo [] st).
Proof.
  intros H1 H2 Hm1 Hm2.
  unfold match_blocks. unfold_monad. rewrite H1, H2. cbv beta iota zeta.
  rewrite Hm1, Hm2. rewrite bool_decide_eq_true_2 by by eexists. simpl.
  rewrite !bool_decide_eq_false_2 by (by intros ?). simpl.
  unfold blocks_matched. by rewrite app_nil_r.
Qed.

(** A key is either left alone by the drain of a queue or given a value that
    does not depend on the map the drain starts from. *)
Lemma match_pairs_lookup_cases r1 r2 q k :
  (∀ m, match_pairs r1 r2 q m !! k = m !! k) ∨
  (∃ v, ∀ m, match_pairs r1 r2 q m !! k = Some v).
Proof.
  induction q as [|p q IH]; [by left|].
  destruct IH as [IH|[v IH]].
  - destruct (decide (k = (r2, p.2))) as [->|Hk2].
    { right. eexists. intros m. rewrite match_pairs_cons, IH. apply lookup_insert_eq. }
    destruct (decide (k = (r1, p.1))) as [->|Hk1].
    { right. eexists. intros m. rewrite match_pairs_cons, IH.
      rewrite lookup_insert_ne by done. apply lookup_insert_eq. }
    left. intros m. rewrite match_pairs_cons, IH. by rewrite !lookup_insert_ne.
  - right. exists v. intros m. by rewrite match_pairs_cons.
Qed.

Lemma match_pairs_idempotent r1 r2 q m :
  match_pairs r1 r2 q (match_pairs r1 r2 q m) = match_pairs r1 r2 q m.
Proof.
  apply map_eq. intros k.
  destruct (match_pairs_lookup_cases r1 r2 q k) as [H|[v H]].
  - by rewrite H.
  - by rewrite !H.
Qed.

Lemma insert_pair_again {V} (m : gmap bref V) r1 r2 v1 v2 :
  <[r2 := v2]> (<[r1 := v1]> (<[r2 := v2]> (<[r1 := v1]> m)))
  = <[r2 := v2]> (<[r1 := v1]> m).
Proof.
  apply map_eq. intros k. rewrite !lookup_insert. by repeat case_decide.
Qed.

Lemma rerun_state r1 r2 algo out q st :
  pairs_matched r1 r2 q (blocks_matched r1 r2 algo []
    (pairs_matched r1 r2 q (blocks_matched r1 r2 algo out st)))
  = pairs_matched r1 r2 q (blocks_matched r1 r2 algo out st).
Proof.
  unfold pairs_matched, blocks_matched, with_graph, set_inst_match,
    set_bb_algorithm, set_bb_match.
  cbn [primary secondary graph similarity confidence created modified single_match
       stdout p_similarity p_confidence fn_similarity fn_confidence fn_algorithm
       fn_match bb_match bb_algorithm inst_match].
  rewrite match_pairs_idempotent, !insert_pair_again, app_nil_r. done.
Qed.

(** X13.  Running [_load_basic_block_info] a second time on a group whose
    pairs all lie in the declared blocks changes nothing: when the first call
    returns, the same call on the state it left returns that very state,
    prints nothing and appends nothing to [single_match]. *)
Theorem declared_blocks_group_is_idempotent f1 f2 a1 a2 algo q st bb1 bb2 st' :
  q ≠ [] →
  Dict.getitem (f_blocks f1) a1 = Some bb1 →
  Dict.getitem (f_blocks f2) a2 = Some bb2 →
  pairs_in_blocks bb1 bb2 q →
  _load_basic_block_info f1 f2 a1 a2 algo q st = (Ret tt, st') →
  _load_basic_block_info f1 f2 a1 a2 algo q st' = (Ret tt, st').
Proof.
  intros Hq H1 H2 Hin Hrun.
  destruct (decide (is_Some (bb_match (graph st) !! primary_block f1 a1) ↔
                    is_Some (bb_match (graph st) !! secondary_block f2 a2)))
    as [Hboth|Hone].
  - destruct (load_basic_block_info_direct f1 f2 a1 a2 algo q st bb1 bb2)
      as [out Hrun']; try done.
    rewrite Hrun' in Hrun. injection Hrun as <-.
    assert (primary_block f1 a1 ≠ secondary_block f2 a2) as Hne by done.
    apply (load_basic_block_info_loop _ _ _ _ _ _ _ 1%nat).
    destruct q as [|p q]; [done|]. unfold block_loop, block_pass, bind.
    rewrite (match_blocks_symmetric _ _ _ _ _ _ bb1 bb2); try done.
    + cbv beta iota. cbn [fst snd]. rewrite drain_direct by done.
      unfold after_pass. do 2 f_equal. apply rerun_state.
    + simpl. rewrite lookup_insert_ne by done. by rewrite lookup_insert_eq.
    + simpl. by rewrite lookup_insert_eq.
  - exfalso.
    assert (_load_basic_block_info f1 f2 a1 a2 algo q st = (Raise AttributeError, st))
      as Hraise.
    { apply (load_basic_block_info_loop _ _ _ _ _ _ _ 1%nat).
      destruct q as [|p q]; [done|]. unfold block_loop, block_pass, bind.
      by rewrite (match_blocks_one_sided_raises _ _ _ _ _ _ bb1 bb2). }
    by rewrite Hraise in Hrun.
Qed.

Lemma declared_blocks_group_is_idempotent_witness :
  _load_basic_block_info Sample.f1 Sample.f2 0x1000 0x2000 2
    [(0x1000, 0x2000); (0x1004, 0x2004)] Sample.entry_matched
  = (Ret tt, Sample.entry_matched).
Proof.
  apply (declared_blocks_group_is_idempotent Sample.f1 Sample.f2 0x1000 0x2000 2
           [(0x1000, 0x2000); (0x1004, 0x2004)] Sample.fresh
           Sample.p1_entry Sample.p2_entry Sample.entry_matched).
  - discriminate.
  - reflexivity.
  - reflexivity.
  - apply (bool_decide_unpack _). vm_compute. exact I.
  - vm_compute. reflexivity.
Defined.

(** ** Rounding twice *)

Lemma round_half_even_thousandths (m : Z) : round_half_even ((m # 1000) * 1000) = m.
Proof.
  unfold round_half_even.
  change (Qnum ((m # 1000) * 1000)) with (m * 1000).
  change (Z.pos (Qden ((m # 1000) * 1000))) with 1000.
  rewrite Z.div_mul by done. rewrite Z.mod_mul by done. reflexivity.
Qed.

(** X14.  Rounding is idempotent: a similarity or confidence that was
    already rounded to three decimals is left as it is by
    [float("{0:.3f}".format(x))], so loading metadata that was stored rounded
    does not drift. *)
Theorem round3_is_idempotent (x : Q) : round3 (round3 x) = round3 x.
Proof.
  unfold round3 at 1 3. f_equal. unfold round3. apply round_half_even_thousandths.
Qed.

(** ** The facade, continued *)

Module FacadeFurther.
Import Facade.

Lemma find_Some_Exists {A} (f : A → bool) (l : list A) x :
  find f l = Some x → x ∈ l ∧ f x = true.
Proof.
  induction l as [|y l IH]; simpl; [done|].
  destruct (f y) eqn:Ey.
  - intros [= ->]. split; [left|done].
  - intros Hf. destruct (IH Hf). split; [by right|done].
Qed.

Lemma find_None_Forall {A} (f : A → bool) (l : list A) :
  find f l = None ↔ ∀ x, x ∈ l → f x = false.
Proof.
  induction l as [|y l IH]; simpl.
  - split; [by intros _ x ?%elem_of_nil|done].
  - destruct (f y) eqn:Ey.
    + split; [done|]. intros Hall. specialize (Hall y ltac:(left)). congruence.
    + rewrite IH. split.
      * intros Hall x [-> | Hx]%elem_of_cons; auto.
      * intros Hall x Hx. apply Hall. by right.
Qed.

(** X15.  [_start_diffing] returns [0] exactly when the differ exited with
    code [0] and its output directory holds a file with the expected name
    [<stem1>_vs_<stem2>.BinDiff] or a file with the suffix [.BinExport]. *)
Theorem start_diffing_returns_zero_iff run f1 f2 w :
  fst (_start_diffing run f1 f2 w) = 0 ↔
  retcode run = 0 ∧
  ∃ p, p ∈ output run ∧ (name p = expected_name f1 f2 ∨ suffix p = ".BinExport").
Proof.
  unfold _start_diffing. case_bool_decide as Hrc; simpl.
  { split; [done|]. by intros [? _]. }
  assert (retcode run = 0) as Hz by (by destruct (decide (retcode run = 0))).
  destruct (find _ (output run)) as [p|] eqn:E1; simpl.
  { apply find_Some_Exists in E1 as [Hp Hn]. apply bool_decide_eq_true in Hn.
    split; [|done]. intros _. split; [done|]. eauto. }
  destruct (find (λ file, bool_decide (suffix file = ".BinExport")) (output run))
    as [p|] eqn:E2; simpl.
  { apply find_Some_Exists in E2 as [Hp Hs]. apply bool_decide_eq_true in Hs.
    split; [|done]. intros _. split; [done|]. eauto. }
  split; [done|]. intros [_ (p & Hp & [Hn|Hs])]; exfalso.
  - rewrite find_None_Forall in E1. specialize (E1 p Hp).
    by apply bool_decide_eq_false in E1.
  - rewrite find_None_Forall in E2. specialize (E2 p Hp).
    by apply bool_decide_eq_false in E2.
Qed.

(** X16.  When [_start_diffing] does not return [0], it returns the exit code
    of the differ if that is not [0] and [-2] otherwise, the file at [out_diff]
    is untouched, the temporary directory is left behind with the files of the
    differ, and one error record is logged last. *)
Theorem start_diffing_failure_moves_nothing run f1 f2 w :
  fst (_start_diffing run f1 f2 w) ≠ 0 →
  fst (_start_diffing run f1 f2 w) = (if bool_decide (retcode run ≠ 0) then retcode run else -2) ∧
  out_diff (snd (_start_diffing run f1 f2 w)) = out_diff w ∧
  tmp_dir (snd (_start_diffing run f1 f2 w)) = Some (output run) ∧
  ∃ records,
    logging (snd (_start_diffing run f1 f2 w)) = logging w ++ records ∧
    last records = Some (if bool_decide (retcode run ≠ 0)
                         then ErrorDifferTerminated (retcode run)
                         else ErrorDiffFileNotFound).
Proof.
  unfold _start_diffing. case_bool_decide as Hrc; simpl.
  { intros _. repeat split. by eexists [_]. }
  destruct (find _ (output run)) as [p|]; simpl; [done|].
  destruct (find (λ file, bool_decide (suffix file = ".BinExport")) (output run))
    as [p|]; simpl; [done|].
  intros _. case_bool_decide; simpl; repeat split.
  - eexists [_; _]. by rewrite <- app_assoc.
  - by eexists [_].
Qed.

Lemma start_diffing_failure_moves_nothing_witness :
  fst (_start_diffing SampleStore.run_other_name SampleStore.primary_file
         SampleStore.secondary_file SampleStore.world)
    = (if bool_decide (retcode SampleStore.run_other_name ≠ 0)
       then retcode SampleStore.run_other_name else -2) ∧
  out_diff (snd (_start_diffing SampleStore.run_other_name SampleStore.primary_file
                   SampleStore.secondary_file SampleStore.world))
    = out_diff SampleStore.world ∧
  tmp_dir (snd (_start_diffing SampleStore.run_other_name SampleStore.primary_file
                  SampleStore.secondary_file SampleStore.world))
    = Some (output SampleStore.run_other_name) ∧
  ∃ records,
    logging (snd (_start_diffing SampleStore.run_other_name SampleStore.primary_file
                    SampleStore.secondary_file SampleStore.world))
      = logging SampleStore.world ++ records ∧
    last records = Some (if bool_decide (retcode SampleStore.run_other_name ≠ 0)
                         then ErrorDifferTerminated (retcode SampleStore.run_other_name)
                         else ErrorDiffFileNotFound).
Proof.
  apply (start_diffing_failure_moves_nothing SampleStore.run_other_name
           SampleStore.primary_file SampleStore.secondary_file SampleStore.world).
  vm_compute. discriminate.
Defined.

(** X17.  After a differ run that exits with code [0], a file with the
    expected name is the one moved to [out_diff], whatever else the directory
    holds and wherever the file stands in the listing: the directory is not
    scanned, no warning is logged, and the temporary directory is removed. *)
Theorem expected_artifact_is_preferred run f1 f2 w file :
  retcode run = 0 →
  find (λ p, bool_decide (name p = expected_name f1 f2)) (output run) = Some file →
  _start_diffing run f1 f2 w =
  (0, {| tmp_dir := None; out_diff := Some file; logging := logging w |}).
Proof.
  intros Hrc Hfile. unfold _start_diffing.
  rewrite bool_decide_eq_false_2 by (by intros ?). by rewrite Hfile.
Qed.

Lemma expected_artifact_is_preferred_witness :
  _start_diffing
    {| retcode := 0;
       output := [{| stem := "a"; suffix := ".BinExport" |};
                  {| stem := "a_vs_b"; suffix := ".BinDiff" |}] |}
    SampleStore.primary_file SampleStore.secondary_file SampleStore.world
  = (0, {| tmp_dir := None;
           out_diff := Some {| stem := "a_vs_b"; suffix := ".BinDiff" |};
           logging := logging SampleStore.world |}).
Proof.
  apply (expected_artifact_is_preferred
           {| retcode := 0;
              output := [{| stem := "a"; suffix := ".BinExport" |};
                         {| stem := "a_vs_b"; suffix := ".BinDiff" |}] |}
           SampleStore.primary_file SampleStore.secondary_file SampleStore.world
           {| stem := "a_vs_b"; suffix := ".BinDiff" |}).
  - reflexivity.
  - vm_compute. reflexivity.
Defined.

(** X18.  In the fallback scan (exit code [0], no file with the expected
    name) the first file of the listing with the suffix [.BinExport] is moved
    to [out_diff] and the temporary directory is removed; the warning about
    multiple files is logged exactly when the directory holds more than one
    entry of any kind. *)
Theorem fallback_scan_moves_first_binexport run f1 f2 w file :
  retcode run = 0 →
  find (λ p, bool_decide (name p = expected_name f1 f2)) (output run) = None →
  find (λ p, bool_decide (suffix p = ".BinExport")) (output run) = Some file →
  _start_diffing run f1 f2 w =
  (0, {| tmp_dir := None; out_diff := Some file;
         logging := logging w ++
                    (if bool_decide (1 < length (output run))%nat
                     then [WarningMultipleFiles] else []) |}).
Proof.
  intros Hrc Hnone Hfile. unfold _start_diffing.
  rewrite bool_decide_eq_false_2 by (by intros ?). rewrite Hnone, Hfile.
  case_bool_decide; simpl; [done|]. by rewrite app_nil_r.
Qed.

Lemma fallback_scan_moves_first_binexport_witness :
  _start_diffing
    {| retcode := 0;
       output := [{| stem := "differ"; suffix := ".log" |};
                  {| stem := "a"; suffix := ".BinExport" |};
                  {| stem := "b"; suffix := ".BinExport" |}] |}
    SampleStore.primary_file SampleStore.secondary_file SampleStore.world
  = (0, {| tmp_dir := None;
           out_diff := Some {| stem := "a"; suffix := ".BinExport" |};
           logging := logging SampleStore.world ++
             (if bool_decide (1 < length
                    (output {| retcode := 0;
                               output := [{| stem := "differ"; suffix := ".log" |};
                                          {| stem := "a"; suffix := ".BinExport" |};
                                          {| stem := "b"; suffix := ".BinExport" |}] |}))%nat
              then [WarningMultipleFiles] else []) |}).
Proof.
  apply (fallback_scan_moves_first_binexport
           {| retcode := 0;
              output := [{| stem := "differ"; suffix := ".log" |};
                         {| stem := "a"; suffix := ".BinExport" |};
                         {| stem := "b"; suffix := ".BinExport" |}] |}
           SampleStore.primary_file SampleStore.secondary_file SampleStore.world
           {| stem := "a"; suffix := ".BinExport" |}).
  - reflexivity.
  - vm_compute. reflexivity.
  - vm_compute. reflexivity.
Defined.

(** X19.  [from_binexport_files] builds a session only after a successful
    diffing step: when it returns a session, the session was constructed on a
    world in which a file of the differ has been moved to [out_diff] and the
    temporary directory is gone; otherwise the constructor is not run. *)
Theorem session_is_built_from_moved_artifact {S : Type} (construct : World → S)
    run f1 f2 w s w' :
  from_binexport_files construct run f1 f2 w = (Some s, w') →
  s = construct w' ∧
  tmp_dir w' = None ∧
  ∃ file, out_diff w' = Some file ∧ file ∈ output run ∧
          (name file = expected_name f1 f2 ∨ suffix file = ".BinExport").
Proof.
  unfold from_binexport_files.
  destruct (_start_diffing run f1 f2 w) as [code w1] eqn:E.
  case_bool_decide as Hc; [|done]. intros [= <- <-]. subst code.
  split; [done|]. revert E. unfold _start_diffing.
  case_bool_decide as Hrc; [intros [= Hz _]; congruence|].
  destruct (find _ (output run)) as [p|] eqn:E1.
  { intros [= <-]. simpl. split; [done|]. exists p.
    apply find_Some_Exists in E1 as [Hp Hn]. apply bool_decide_eq_true in Hn. eauto. }
  destruct (find (λ file, bool_decide (suffix file = ".BinExport")) (output run))
    as [p|] eqn:E2; [|done].
  intros [= <-]. simpl. split; [done|]. exists p.
  apply find_Some_Exists in E2 as [Hp Hs]. apply bool_decide_eq_true in Hs. eauto.
Qed.

Lemma session_is_built_from_moved_artifact_witness :
  snd (_start_diffing SampleStore.run_expected SampleStore.primary_file
         SampleStore.secondary_file SampleStore.world)
    = (λ w : World, w)
        (snd (_start_diffing SampleStore.run_expected SampleStore.primary_file
                SampleStore.secondary_file SampleStore.world)) ∧
  tmp_dir (snd (_start_diffing SampleStore.run_expected SampleStore.primary_file
                  SampleStore.secondary_file SampleStore.world)) = None ∧
  ∃ file,
    out_diff (snd (_start_diffing SampleStore.run_expected SampleStore.primary_file
                     SampleStore.secondary_file SampleStore.world)) = Some file ∧
    file ∈ output SampleStore.run_expected ∧
    (name file = expected_name SampleStore.primary_file SampleStore.secondary_file ∨
     suffix file = ".BinExport").
Proof.
  apply (session_is_built_from_moved_artifact (λ w : World, w)
           SampleStore.run_expected SampleStore.primary_file
           SampleStore.secondary_file SampleStore.world
           (snd (_start_diffing SampleStore.run_expected SampleStore.primary_file
                   SampleStore.secondary_file SampleStore.world))
           (snd (_start_diffing SampleStore.run_expected SampleStore.primary_file
                   SampleStore.secondary_file SampleStore.world))).
  vm_compute. reflexivity.
Defined.

End FacadeFurther.

(** ** Function records, continued *)

#[global] Instance other_functions_same_preorder k1 k2 : PreOrder (other_functions_same k1 k2).
Proof.
  split.
  - by intros st r.
  - intros st1 st2 st3 H12 H23 r Hr1 Hr2.
    destruct (H12 r Hr1 Hr2) as (Hm & Ha & Hi).
    destruct (H23 r Hr1 Hr2) as (Hm' & Ha' & Hi').
    split; [congruence|]. split; [congruence|]. intros i. by rewrite Hi', Hi.
Qed.

Lemma match_blocks_other_functions f1 f2 a1 a2 algo :
  maintains (other_functions_same (f_key f1) (f_key f2)) (match_blocks f1 f2 a1 a2 algo).
Proof.
  intros st. destruct (match_blocks f1 f2 a1 a2 algo st) as [o st'] eqn:E.
  apply match_blocks_inv in E as [(e & -> & ->)|(bb1 & bb2 & out & -> & _ & _ & ->)];
    simpl; [done|].
  intros r Hr1 Hr2. simpl.
  assert (primary_block f1 a1 ≠ r) by (intros <-; by apply Hr1).
  assert (secondary_block f2 a2 ≠ r) by (intros <-; by apply Hr2).
  by rewrite !lookup_insert_ne.
Qed.

Lemma load_instruction_other_functions f1 f2 a1 a2 i1 i2 :
  maintains (other_functions_same (f_key f1) (f_key f2))
    (_load_instruction_info (primary_block f1 a1, i1) (secondary_block f2 a2, i2)).
Proof.
  intros st r Hr1 Hr2. simpl. split; [done|]. split; [done|]. intros i.
  rewrite !lookup_insert_ne; [done|intros [= <- _]; by apply Hr1|intros [= <- _]; by apply Hr2].
Qed.

Lemma recover_other_functions k1 k2 f1 f2 bb1 bb2 a1 a2 i1 i2 q :
  maintains (other_functions_same k1 k2) (recover f1 f2 bb1 bb2 a1 a2 i1 i2 q).
Proof. intros st r _ _. by rewrite recover_same_graph. Qed.

Lemma drain_other_functions f1 f2 bb1 bb2 a1 a2 q :
  maintains (other_functions_same (f_key f1) (f_key f2)) (drain f1 f2 bb1 bb2 a1 a2 q).
Proof.
  induction q as [|[i1 i2] q IH]; simpl.
  - solve_maintains.
  - pose proof load_instruction_other_functions.
    pose proof recover_other_functions. solve_maintains.
Qed.

Lemma block_pass_other_functions f1 f2 algo a1 a2 q :
  maintains (other_functions_same (f_key f1) (f_key f2)) (block_pass f1 f2 algo a1 a2 q).
Proof.
  pose proof match_blocks_other_functions. pose proof drain_other_functions.
  unfold block_pass. solve_maintains.
Qed.

(** X20.  Whatever its outcome, [_load_basic_block_info] on the functions
    [f1] and [f2] leaves the match and the algorithm of every block, and the
    match of every instruction, of all other functions of both programs as
    they were: resolving one function pair does not disturb another. *)
Theorem basic_block_info_leaves_other_functions_alone f1 f2 a1 a2 algo q st (r : bref) :
  r.1 ≠ (Primary, f_key f1) →
  r.1 ≠ (Secondary, f_key f2) →
  bb_match (graph (snd (_load_basic_block_info f1 f2 a1 a2 algo q st))) !! r
    = bb_match (graph st) !! r ∧
  bb_algorithm (graph (snd (_load_basic_block_info f1 f2 a1 a2 algo q st))) !! r
    = bb_algorithm (graph st) !! r ∧
  ∀ i, inst_match (graph (snd (_load_basic_block_info f1 f2 a1 a2 algo q st))) !! (r, i)
       = inst_match (graph st) !! (r, i).
Proof.
  intros Hr1 Hr2.
  apply (load_basic_block_info_maintains (other_functions_same (f_key f1) (f_key f2))
           f1 f2 a1 a2 algo q (block_pass_other_functions f1 f2 algo) st r Hr1 Hr2).
Qed.

Lemma basic_block_info_leaves_other_functions_alone_witness :
  bb_match (graph (snd (_load_basic_block_info Sample.f1 Sample.f2 0x1000 0x2000 2
                          [(0x1000, 0x2000)] Sample.fresh))) !! (Primary, 0x3000, 0x3000)
    = bb_match (graph Sample.fresh) !! (Primary, 0x3000, 0x3000) ∧
  bb_algorithm (graph (snd (_load_basic_block_info Sample.f1 Sample.f2 0x1000 0x2000 2
                              [(0x1000, 0x2000)] Sample.fresh))) !! (Primary, 0x3000, 0x3000)
    = bb_algorithm (graph Sample.fresh) !! (Primary, 0x3000, 0x3000) ∧
  ∀ i, inst_match (graph (snd (_load_basic_block_info Sample.f1 Sample.f2 0x1000 0x2000 2
                                 [(0x1000, 0x2000)] Sample.fresh)))
         !! ((Primary, 0x3000, 0x3000), i)
       = inst_match (graph Sample.fresh) !! ((Primary, 0x3000, 0x3000), i).
Proof.
  apply (basic_block_info_leaves_other_functions_alone Sample.f1 Sample.f2
           0x1000 0x2000 2 [(0x1000, 0x2000)] Sample.fresh (Primary, 0x3000, 0x3000)).
  - vm_compute. discriminate.
  - vm_compute. discriminate.
Defined.

(** X21.  Whatever its outcome, [_load_function_info] writes the similarity,
    the confidence, the algorithm and the match of the two functions its
    record names and of no other function. *)
Theorem function_info_writes_its_two_functions_only d (r : fref) st :
  r ≠ (Primary, fd_addr1 d) →
  r ≠ (Secondary, fd_addr2 d) →
  fn_similarity (graph (snd (_load_function_info d st))) !! r = fn_similarity (graph st) !! r ∧
  fn_confidence (graph (snd (_load_function_info d st))) !! r = fn_confidence (graph st) !! r ∧
  fn_algorithm (graph (snd (_load_function_info d st))) !! r = fn_algorithm (graph st) !! r ∧
  fn_match (graph (snd (_load_function_info d st))) !! r = fn_match (graph st) !! r.
Proof.
  intros Hr1 Hr2.
  destruct (load_function_info_fn_same_at d r Hr1 Hr2 st) as [Hs Hc Ha Hm].
  done.
Qed.

Lemma function_info_writes_its_two_functions_only_witness :
  fn_similarity (graph (snd (_load_function_info
      {| fd_addr1 := 0x1000; fd_addr2 := 0x2000; fd_similarity := 19 # 20;
         fd_confidence := 9 # 10; fd_algo := 1; fd_bbs := [] |} Sample.fresh)))
    !! (Primary, 0x3000) = fn_similarity (graph Sample.fresh) !! (Primary, 0x3000) ∧
  fn_confidence (graph (snd (_load_function_info
      {| fd_addr1 := 0x1000; fd_addr2 := 0x2000; fd_similarity := 19 # 20;
         fd_confidence := 9 # 10; fd_algo := 1; fd_bbs := [] |} Sample.fresh)))
    !! (Primary, 0x3000) = fn_confidence (graph Sample.fresh) !! (Primary, 0x3000) ∧
  fn_algorithm (graph (snd (_load_function_info
      {| fd_addr1 := 0x1000; fd_addr2 := 0x2000; fd_similarity := 19 # 20;
         fd_confidence := 9 # 10; fd_algo := 1; fd_bbs := [] |} Sample.fresh)))
    !! (Primary, 0x3000) = fn_algorithm (graph Sample.fresh) !! (Primary, 0x3000) ∧
  fn_match (graph (snd (_load_function_info
      {| fd_addr1 := 0x1000; fd_addr2 := 0x2000; fd_similarity := 19 # 20;
         fd_confidence := 9 # 10; fd_algo := 1; fd_bbs := [] |} Sample.fresh)))
    !! (Primary, 0x3000) = fn_match (graph Sample.fresh) !! (Primary, 0x3000).
Proof.
  apply (function_info_writes_its_two_functions_only
           {| fd_addr1 := 0x1000; fd_addr2 := 0x2000; fd_similarity := 19 # 20;
              fd_confidence := 9 # 10; fd_algo := 1; fd_bbs := [] |}
           (Primary, 0x3000) Sample.fresh).
  - discriminate.
  - discriminate.
Defined.

(** X22.  Two function records that name the same primary function and two
    different secondary functions are both applied (the function level has
    no conflict check): after
    the second one the primary function is matched with the secondary
    function of the second record and carries its similarity and confidence,
    rounded to 3 decimals, and its algorithm, while the secondary function of
    the first record still points
    to the primary function. *)
Theorem later_function_record_overwrites_match d1 d2 st st' :
  load_functions [d1; d2] st = (Ret tt, st') →
  fd_addr1 d1 = fd_addr1 d2 →
  fd_addr2 d1 ≠ fd_addr2 d2 →
  fn_match (graph st') !! (Primary, fd_addr1 d1) = Some (Secondary, fd_addr2 d2) ∧
  fn_match (graph st') !! (Secondary, fd_addr2 d2) = Some (Primary, fd_addr1 d1) ∧
  fn_match (graph st') !! (Secondary, fd_addr2 d1) = Some (Primary, fd_addr1 d1) ∧
  fn_similarity (graph st') !! (Primary, fd_addr1 d1) = Some (round3 (fd_similarity d2)) ∧
  fn_confidence (graph st') !! (Primary, fd_addr1 d1) = Some (round3 (fd_confidence d2)) ∧
  fn_algorithm (graph st') !! (Primary, fd_addr1 d1) = Some (FunctionAlgorithm_of (fd_algo d2)).
Proof.
  intros Hrun Ha1 Ha2. simpl in Hrun. unfold bind in Hrun.
  destruct (_load_function_info d1 st) as [[[]|e1] st1] eqn:E1; [|done].
  destruct (_load_function_info d2 st1) as [[[]|e2] st2] eqn:E2; [|done].
  unfold ret in Hrun. injection Hrun as <-.
  pose proof (load_function_info_annotates _ _ _ E1) as (_ & G1 & _).
  pose proof (load_function_info_annotates _ _ _ E2) as (Hm1 & Hm2 & Hs & _ & Hc & _ & Ha & _).
  assert ((Secondary, fd_addr2 d1) ≠ (Primary, fd_addr1 d2)) as Hn1 by done.
  assert ((Secondary, fd_addr2 d1) ≠ (Secondary, fd_addr2 d2)) as Hn2 by congruence.
  destruct (load_function_info_fn_same_at d2 _ Hn1 Hn2 st1) as [_ _ _ Hsame].
  rewrite E2 in Hsame. simpl in Hsame.
  rewrite Ha1. repeat split; try done.
  rewrite <- Ha1. exact (eq_trans Hsame G1).
Qed.

Lemma later_function_record_overwrites_match_witness :
  fn_match (graph (snd (load_functions
      [{| fd_addr1 := 0x1000; fd_addr2 := 0x2000; fd_similarity := 19 # 20;
          fd_confidence := 9 # 10; fd_algo := 1; fd_bbs := [] |};
       {| fd_addr1 := 0x1000; fd_addr2 := 0x2800; fd_similarity := 1 # 2;
          fd_confidence := 1 # 4; fd_algo := 3; fd_bbs := [] |}]
      (fresh_session Sample.p1 [(0x2000, f_blocks Sample.f2); (0x2800, [])] no_annotations))))
    !! (Primary, 0x1000) = Some (Secondary, 0x2800) ∧
  fn_match (graph (snd (load_functions
      [{| fd_addr1 := 0x1000; fd_addr2 := 0x2000; fd_similarity := 19 # 20;
          fd_confidence := 9 # 10; fd_algo := 1; fd_bbs := [] |};
       {| fd_addr1 := 0x1000; fd_addr2 := 0x2800; fd_similarity := 1 # 2;
          fd_confidence := 1 # 4; fd_algo := 3; fd_bbs := [] |}]
      (fresh_session Sample.p1 [(0x2000, f_blocks Sample.f2); (0x2800, [])] no_annotations))))
    !! (Secondary, 0x2800) = Some (Primary, 0x1000) ∧
  fn_match (graph (snd (load_functions
      [{| fd_addr1 := 0x1000; fd_addr2 := 0x2000; fd_similarity := 19 # 20;
          fd_confidence := 9 # 10; fd_algo := 1; fd_bbs := [] |};
       {| fd_addr1 := 0x1000; fd_addr2 := 0x2800; fd_similarity := 1 # 2;
          fd_confidence := 1 # 4; fd_algo := 3; fd_bbs := [] |}]
      (fresh_session Sample.p1 [(0x2000, f_blocks Sample.f2); (0x2800, [])] no_annotations))))
    !! (Secondary, 0x2000) = Some (Primary, 0x1000) ∧
  fn_similarity (graph (snd (load_functions
      [{| fd_addr1 := 0x1000; fd_addr2 := 0x2000; fd_similarity := 19 # 20;
          fd_confidence := 9 # 10; fd_algo := 1; fd_bbs := [] |};
       {| fd_addr1 := 0x1000; fd_addr2 := 0x2800; fd_similarity := 1 # 2;
          fd_confidence := 1 # 4; fd_algo := 3; fd_bbs := [] |}]
      (fresh_session Sample.p1 [(0x2000, f_blocks Sample.f2); (0x2800, [])] no_annotations))))
    !! (Primary, 0x1000) = Some (round3 (1 # 2)) ∧
  fn_confidence (graph (snd (load_functions
      [{| fd_addr1 := 0x1000; fd_addr2 := 0x2000; fd_similarity := 19 # 20;
          fd_confidence := 9 # 10; fd_algo := 1; fd_bbs := [] |};
       {| fd_addr1 := 0x1000; fd_addr2 := 0x2800; fd_similarity := 1 # 2;
          fd_confidence := 1 # 4; fd_algo := 3; fd_bbs := [] |}]
      (fresh_session Sample.p1 [(0x2000, f_blocks Sample.f2); (0x2800, [])] no_annotations))))
    !! (Primary, 0x1000) = Some (round3 (1 # 4)) ∧
  fn_algorithm (graph (snd (load_functions
      [{| fd_addr1 := 0x1000; fd_addr2 := 0x2000; fd_similarity := 19 # 20;
          fd_confidence := 9 # 10; fd_algo := 1; fd_bbs := [] |};
       {| fd_addr1 := 0x1000; fd_addr2 := 0x2800; fd_similarity := 1 # 2;
          fd_confidence := 1 # 4; fd_algo := 3; fd_bbs := [] |}]
      (fresh_session Sample.p1 [(0x2000, f_blocks Sample.f2); (0x2800, [])] no_annotations))))
    !! (Primary, 0x1000) = Some (FunctionAlgorithm_of 3).
Proof.
  apply (later_function_record_overwrites_match
           {| fd_addr1 := 0x1000; fd_addr2 := 0x2000; fd_similarity := 19 # 20;
              fd_confidence := 9 # 10; fd_algo := 1; fd_bbs := [] |}
           {| fd_addr1 := 0x1000; fd_addr2 := 0x2800; fd_similarity := 1 # 2;
              fd_confidence := 1 # 4; fd_algo := 3; fd_bbs := [] |}
           (fresh_session Sample.p1 [(0x2000, f_blocks Sample.f2); (0x2800, [])]
              no_annotations)).
  - vm_compute. reflexivity.
  - reflexivity.
  - discriminate.
Defined.
